(** * tactile_servo_control: label codec, error metrics and control parameters

    A shallow embedding of
    - [learning/utils_learning.py]: class [LabelEncoder] (normalised and
      circular label encodings, their decoders, the error and accuracy
      metrics) and class [LabelledModel] ([predict], from the outputs of
      the network on);
    - [servo_control/setup_servo_control.py]: [setup_control_params] and
      [setup_env_params];
    - the PI controller of the design document (section 4.4), whose source
      is not part of the repository snapshot.

    Torch tensors and numpy arrays hold floating-point numbers.  The
    embedding is parametric in the arithmetic of the cells (class [Scalar]):
    the instance on [R] is exact arithmetic, the instance on [spec_float]
    with 24 bits of precision is IEEE-754 binary32 as torch computes it
    (round to nearest even, infinities and NaN).  The trigonometric
    functions (class [Trig]) are the real functions on [R]; on binary32 they
    take the values IEEE 754 fixes at zeros, infinities and NaN, and those of
    a library that stays a parameter everywhere else.
    Python exceptions are values of [pyerr] carried by the [res] monad. *)

From Stdlib Require Import Reals Lra ZArith QArith Qabs Floats.SpecFloat.
From stdpp Require Import gmap strings.

Local Open Scope Z_scope.

(** ** Python exceptions *)

Inductive pyerr :=
  | KeyError | ValueError | IndexError | TypeError | RuntimeError
  | UnboundLocalError.

Inductive res (A : Type) :=
  | Ok (a : A)
  | Raise (e : pyerr).
Arguments Ok {A} a.
Arguments Raise {A} e.

Definition bind {A B} (m : res A) (f : A → res B) : res B :=
  match m with Ok a => f a | Raise e => Raise e end.

Notation "'let*' x := m 'in' k" := (bind m (λ x, k))
  (at level 10, x name, m at level 100, k at level 200, only parsing).

Definition is_ok {A} (m : res A) : bool :=
  match m with Ok _ => true | Raise _ => false end.

(** [d[k]] on a dict, [l[i]] on a list or array with [0 <= i]. *)
Definition dict_get {V} (d : gmap string V) (k : string) : res V :=
  match d !! k with Some v => Ok v | None => Raise KeyError end.

Definition getitem {A} (l : list A) (i : nat) : res A :=
  match l !! i with Some a => Ok a | None => Raise IndexError end.

(** [l.index(x)]: position of the first occurrence. *)
Fixpoint index (l : list string) (x : string) : res nat :=
  match l with
  | [] => Raise ValueError
  | y :: l' => if decide (y = x) then Ok 0%nat else let* i := index l' x in Ok (S i)
  end.

(** [l.count(x)] *)
Definition count (l : list string) (x : string) : nat :=
  length (filter (λ y, y = x) l).

(** [x in l] *)
Definition mem (x : string) (l : list string) : bool :=
  bool_decide (x ∈ l).

(** ** Cell arithmetic *)

Class Scalar (T : Type) := {
  s_of_Z : Z → T;
  s_add : T → T → T;
  s_sub : T → T → T;
  s_mul : T → T → T;
  s_div : T → T → T;
  s_abs : T → T;
  s_ltb : T → T → bool
}.

(** [np.pi], [torch.sin], [torch.cos], [torch.atan2]. *)
Class Trig (T : Type) := {
  t_pi : T;
  t_sin : T → T;
  t_cos : T → T;
  t_atan2 : T → T → T
}.

Declare Scope cell_scope.
Delimit Scope cell_scope with cell.
Infix "⊕" := s_add (at level 50, left associativity) : cell_scope.
Infix "⊖" := s_sub (at level 50, left associativity) : cell_scope.
Infix "⊗" := s_mul (at level 40, left associativity) : cell_scope.
Infix "⊘" := s_div (at level 40, left associativity) : cell_scope.

(** *** Exact arithmetic *)

Definition Rltb (x y : R) : bool := if Rlt_dec x y then true else false.

(** The two-argument arctangent, with values in (-PI, PI]. *)
Definition atan2 (y x : R) : R :=
  if Rlt_dec 0 x then atan (y / x)
  else if Rlt_dec x 0 then
    if Rle_dec 0 y then atan (y / x) + PI else atan (y / x) - PI
  else if Rlt_dec 0 y then PI / 2
  else if Rlt_dec y 0 then - (PI / 2)
  else 0.

#[global] Instance R_scalar : Scalar R := {|
  s_of_Z := IZR; s_add := Rplus; s_sub := Rminus; s_mul := Rmult;
  s_div := Rdiv; s_abs := Rabs; s_ltb := Rltb |}.

(** The trigonometry of exact arithmetic: what the float32 kernels of torch
    approximate.  It has no signed zero and no rounding: [atan2] never
    returns [- PI]. *)
#[global] Instance R_trig : Trig R := {|
  t_pi := PI; t_sin := sin; t_cos := cos; t_atan2 := atan2 |}.

(** *** IEEE-754 binary32 *)

Module B32.
Definition prec : Z := 24.
Definition emax : Z := 128.
Definition t : Type := spec_float.

Definition of_Z (z : Z) : t := binary_normalize prec emax z 0 false.
Definition is_finite (x : t) : bool :=
  match x with S754_zero _ | S754_finite _ _ _ => true | _ => false end.

(** The rational a finite cell stands for. *)
Definition to_Q (x : t) : option Q :=
  match x with
  | S754_zero _ => Some 0%Q
  | S754_finite s m e =>
      let a := if s then Z.neg m else Z.pos m in
      Some (if e <? 0 then Qmake a (2 ^ Z.to_pos (- e))%positive
            else inject_Z (a * 2 ^ e))
  | _ => None
  end.

(** The binary32 numbers nearest to pi, pi/2, pi/4 and 3 pi/4. *)
Definition pi : t := S754_finite false 13176795 (-22).
Definition half_pi : t := S754_finite false 13176795 (-23).
Definition quarter_pi : t := S754_finite false 13176795 (-24).
Definition three_quarter_pi : t := S754_finite false 9882596 (-22).

Definition with_sign (s : bool) (x : t) : t := if s then SFopp x else x.

(** The kernels of [sin], [cos] and [atan2] on finite arguments other than
    zero, where the standard leaves the last bit to the library. *)
Record libm := {
  libm_sin : t → t;
  libm_cos : t → t;
  libm_atan2 : t → t → t
}.

(** [torch.sin] and [torch.cos] on a float32 cell: sin(+-0) = +-0,
    cos(+-0) = 1, NaN at an infinity. *)
Definition sin (l : libm) (x : t) : t :=
  match x with
  | S754_zero _ => x
  | S754_infinity _ | S754_nan => S754_nan
  | S754_finite _ _ _ => libm_sin l x
  end.

Definition cos (l : libm) (x : t) : t :=
  match x with
  | S754_zero _ => of_Z 1
  | S754_infinity _ | S754_nan => S754_nan
  | S754_finite _ _ _ => libm_cos l x
  end.

(** [torch.atan2] on two float32 cells, with the values of IEEE 754 where an
    argument is a zero, an infinity or NaN: the result has the sign of [y],
    and atan2(+-0, x) is +-pi for x < 0 or x = -0 and +-0 otherwise. *)
Definition atan2 (l : libm) (y x : t) : t :=
  match y, x with
  | S754_nan, _ | _, S754_nan => S754_nan
  | S754_zero s, S754_zero sx
  | S754_zero s, S754_finite sx _ _
  | S754_zero s, S754_infinity sx
  | S754_finite s _ _, S754_infinity sx =>
      if sx then with_sign s pi else S754_zero s
  | S754_infinity s, S754_infinity sx =>
      with_sign s (if sx then three_quarter_pi else quarter_pi)
  | S754_infinity s, _ | S754_finite s _ _, S754_zero _ => with_sign s half_pi
  | S754_finite _ _ _, S754_finite _ _ _ => libm_atan2 l y x
  end.
End B32.

#[global] Instance B32_scalar : Scalar B32.t := {|
  s_of_Z := B32.of_Z;
  s_add := SFadd B32.prec B32.emax;
  s_sub := SFsub B32.prec B32.emax;
  s_mul := SFmul B32.prec B32.emax;
  s_div := SFdiv B32.prec B32.emax;
  s_abs := SFabs;
  s_ltb := SFltb |}.

(** [np.pi] enters a float32 product or quotient as the nearest binary32
    number. *)
Definition B32_trig (l : B32.libm) : Trig B32.t := {|
  t_pi := B32.pi; t_sin := B32.sin l; t_cos := B32.cos l; t_atan2 := B32.atan2 l |}.

(** ** Python numbers, tensors *)

(** A Python [int], or a Python [float]; [numpy.float64], the type of the
    entries of [np.ones(n)], is a subclass of [float] and behaves like it
    wherever the code uses one.  A float that meets a tensor is cast to the
    tensor's arithmetic, so it is kept as a cell. *)
Inductive pynum (T : Type) :=
  | PyInt (z : Z)
  | PyFloat (x : T).
Arguments PyInt {T} z.
Arguments PyFloat {T} x.

(** JSON-like values of a [task_params] document. *)
Inductive jval (T : Type) :=
  | JStrs (l : list string)
  | JNums (l : list (pynum T)).
Arguments JStrs {T} l.
Arguments JNums {T} l.

(** A tensor of shape (B, W), as its W columns of B cells each. *)
Record tensor2 (T : Type) := Tensor2 {
  t_rows : nat;
  t_cols : list (list T)
}.
Arguments Tensor2 {T}.
Arguments t_rows {T}.
Arguments t_cols {T}.

Definition width {T} (x : tensor2 T) : nat := length (t_cols x).

(** ** LabelEncoder *)

Section LabelEncoder.
Context {T : Type} `{Scalar T, Trig T}.
Local Open Scope cell_scope.

Definition num_val (w : pynum T) : T :=
  match w with PyInt z => s_of_Z z | PyFloat x => x end.

(** [np.ones(n)] *)
Definition np_ones (n : nat) : list (pynum T) := replicate n (PyFloat (s_of_Z 1)).

(** The attributes set by [__init__].  [llims_np] and [llims_torch] (and the
    upper limits likewise) are two copies of the same numbers; the record
    keeps one. *)
Record LabelEncoder := {
  label_names : list string;
  target_label_names : list string;
  periodic_label_names : list string;
  target_weights : list (pynum T);
  tolerences : list (pynum T);
  llims : list T;
  ulims : list T
}.

(** A document entry of the other JSON type is reported as [TypeError] when
    the encoder is built. *)
Definition as_strs (v : jval T) : res (list string) :=
  match v with JStrs l => Ok l | JNums _ => Raise TypeError end.
Definition as_nums (v : jval T) : res (list (pynum T)) :=
  match v with JNums l => Ok l | JStrs _ => Raise TypeError end.

(** [d.get(k, default)] *)
Definition dict_get_default {V} (d : gmap string V) (k : string) (dflt : V) : V :=
  default dflt (d !! k).

Definition LabelEncoder_init (task_params : gmap string (jval T)) : res LabelEncoder :=
  let* names := bind (dict_get task_params "label_names") as_strs in
  let* targets := bind (dict_get task_params "target_label_names") as_strs in
  let num_targets := length targets in
  let* periodic := as_strs (dict_get_default task_params "periodic_label_names" (JStrs [])) in
  let* weights := as_nums (dict_get_default task_params "target_weights" (JNums (np_ones num_targets))) in
  let* tols := as_nums (dict_get_default task_params "tolerences" (JNums (np_ones num_targets))) in
  let* lo := bind (dict_get task_params "llims") as_nums in
  let* hi := bind (dict_get task_params "ulims") as_nums in
  Ok {| label_names := names; target_label_names := targets;
        periodic_label_names := periodic; target_weights := weights;
        tolerences := tols; llims := num_val <$> lo; ulims := num_val <$> hi |}.

Definition out_dim (self : LabelEncoder) : nat :=
  let periodic_dims := count (target_label_names self) <$> periodic_label_names self in
  (length (target_label_names self) + sum_list periodic_dims)%nat.

(** [target] is a tensor of shape (B,); the result, of shape (B, 1), is kept
    as the column of its cells. *)
Definition encode_norm (self : LabelEncoder) (target : list T) (label_name : string)
  : res (list T) :=
  let* llim := bind (index (label_names self) label_name) (getitem (llims self)) in
  let* ulim := bind (index (label_names self) label_name) (getitem (ulims self)) in
  Ok ((λ t, ((t ⊖ llim) ⊘ (ulim ⊖ llim)) ⊗ s_of_Z 2 ⊖ s_of_Z 1) <$> target).

Definition decode_norm (self : LabelEncoder) (prediction : list T) (label_name : string)
  : res (list T) :=
  let* llim := bind (index (label_names self) label_name) (getitem (llims self)) in
  let* ulim := bind (index (label_names self) label_name) (getitem (ulims self)) in
  Ok ((λ p, (((p ⊕ s_of_Z 1) ⊘ s_of_Z 2) ⊗ (ulim ⊖ llim)) ⊕ llim) <$> prediction).

(** An elementwise binary operation on tensors of shape (Ba,) and (Bb,),
    with broadcasting. *)
Definition tensor_zip (f : T → T → T) (a b : list T) : res (list T) :=
  if decide (length a = length b) then Ok (zip_with f a b)
  else match a, b with
       | [x], _ => Ok (f x <$> b)
       | _, [y] => Ok ((λ x, f x y) <$> a)
       | _, _ => Raise RuntimeError
       end.

(** The Python list [[sin(ang), cos(ang)]] of two columns. *)
Definition encode_circnorm (target : list T) : list (list T) :=
  let ang := (λ t, t ⊗ t_pi ⊘ s_of_Z 180) <$> target in
  [t_sin <$> ang; t_cos <$> ang].

(** [torch.atan2] receives the unpacked list: exactly two tensors. *)
Definition decode_circnorm (vec_prediction : list (list T)) : res (list T) :=
  match vec_prediction with
  | [y; x] =>
      let* pred_rot := tensor_zip t_atan2 y x in
      Ok ((λ a, a ⊗ s_of_Z 180 ⊘ t_pi) <$> pred_rot)
  | _ => Raise TypeError
  end.

(** [weight * tensor] and [tensor / weight] *)
Definition tensor_rmul (weight : pynum T) (x : list T) : list T :=
  (λ c, num_val weight ⊗ c) <$> x.
Definition tensor_div (x : list T) (weight : pynum T) : list T :=
  (λ c, c ⊘ num_val weight) <$> x.

(** [weight * l] for a Python list [l]: an [int] repeats the list, a [float]
    raises (can't multiply sequence by non-int). *)
Definition list_rmul {A} (weight : pynum T) (l : list A) : res (list A) :=
  match weight with
  | PyInt z => Ok (concat (replicate (Z.to_nat z) l))
  | PyFloat _ => Raise TypeError
  end.

(** [torch.cat(cols, 1)] of tensors of shape (B, 1). *)
Definition cat1 (cols : list (list T)) : res (tensor2 T) :=
  match cols with
  | [] => Raise RuntimeError
  | c :: cs =>
      if forallb (λ c', length c' =? length c)%nat cs
      then Ok (Tensor2 (length c) cols)
      else Raise RuntimeError
  end.

(** The loop of [encode_label] over [zip(target_label_names, target_weights)],
    threading the list [encoded_pose]. *)
Fixpoint encode_loop (self : LabelEncoder) (labels_dict : gmap string (list T))
    (pairs : list (string * pynum T)) (encoded_pose : list (list T))
  : res (list (list T)) :=
  match pairs with
  | [] => Ok encoded_pose
  | (label_name, weight) :: rest =>
      let* target := dict_get labels_dict label_name in
      let* pose1 := (if negb (mem label_name (periodic_label_names self))
               then let* col := encode_norm self target label_name in
                    Ok (encoded_pose ++ [tensor_rmul weight col])
               else Ok encoded_pose) in
      let* pose2 := (if mem label_name (periodic_label_names self)
               then let* ext := list_rmul weight (encode_circnorm target) in
                    Ok (pose1 ++ ext)
               else Ok pose1) in
      encode_loop self labels_dict rest pose2
  end.

Definition encode_label (self : LabelEncoder) (labels_dict : gmap string (list T))
  : res (tensor2 T) :=
  let* encoded_pose :=
    encode_loop self labels_dict
      (zip (target_label_names self) (target_weights self)) [] in
  cat1 encoded_pose.

(** The loop of [decode_label], threading [ind] and [decoded_pose]. *)
Fixpoint decode_loop (self : LabelEncoder) (outputs : tensor2 T)
    (pairs : list (string * pynum T)) (ind : nat) (decoded_pose : gmap string (list T))
  : res (gmap string (list T)) :=
  match pairs with
  | [] => Ok decoded_pose
  | (label_name, weight) :: rest =>
      if negb (mem label_name (periodic_label_names self)) then
        let* col := getitem (t_cols outputs) ind in
        let prediction := tensor_div col weight in
        let* v := decode_norm self prediction label_name in
        decode_loop self outputs rest (ind + 1) (<[label_name := v]> decoded_pose)
      else
        let* col0 := getitem (t_cols outputs) ind in
        let* col1 := getitem (t_cols outputs) (ind + 1) in
        let vec_prediction := [tensor_div col0 weight; tensor_div col1 weight] in
        let* v := decode_circnorm vec_prediction in
        decode_loop self outputs rest (ind + 2) (<[label_name := v]> decoded_pose)
  end.

(** [{label: torch.zeros(B) for label in names}] *)
Definition zeros_dict (names : list string) (B : nat) : gmap string (list T) :=
  foldl (λ d label, <[label := replicate B (s_of_Z 0)]> d) ∅ names.

Definition decode_label (self : LabelEncoder) (outputs : tensor2 T)
  : res (gmap string (list T)) :=
  decode_loop self outputs
    (zip (target_label_names self) (target_weights self)) 0
    (zeros_dict (label_names self) (t_rows outputs)).

(** The number of columns one pass of the loop of [encode_label] appends
    when it raises nothing. *)
Definition emitted (self : LabelEncoder) (pr : string * pynum T) : nat :=
  if mem pr.1 (periodic_label_names self)
  then match pr.2 with PyInt z => (2 * Z.to_nat z)%nat | PyFloat _ => 0%nat end
  else 1%nat.

(** The number of columns the loop of [decode_label] reads: two for a
    periodic label, one for any other. *)
Definition consumed (self : LabelEncoder) (pairs : list (string * pynum T)) : nat :=
  sum_list ((λ pr, if mem pr.1 (periodic_label_names self) then 2 else 1)%nat <$> pairs).

(** [outputs[:, :n]] *)
Definition narrow (n : nat) (outputs : tensor2 T) : tensor2 T :=
  Tensor2 (t_rows outputs) (take n (t_cols outputs)).

(** *** Metrics *)

(** A pandas DataFrame with a default index: the number of rows and the
    columns by name.  A cell is [None] where pandas holds a missing value. *)
Record frame := Frame {
  f_rows : nat;
  f_cols : gmap string (list (option T))
}.

(** [pd.DataFrame(columns=names)] *)
Definition frame_new (names : list string) : frame :=
  Frame 0 (foldl (λ m c, <[c := []]> m) ∅ names).

(** [df[name]] *)
Definition frame_get (df : frame) (name : string) : res (list (option T)) :=
  dict_get (f_cols df) name.

(** [df[name] = col]: a frame without rows takes the length of [col] and
    fills its other columns with missing values; otherwise the lengths must
    agree. *)
Definition frame_set (df : frame) (name : string) (col : list (option T)) : res frame :=
  if decide (f_rows df = 0%nat) then
    Ok (Frame (length col)
          (<[name := col]> ((λ _, replicate (length col) None) <$> f_cols df)))
  else if decide (length col = f_rows df) then
    Ok (Frame (f_rows df) (<[name := col]> (f_cols df)))
  else Raise ValueError.

(** The error of one periodic cell, from the difference of the two angles in
    radians. *)
Definition circ_err (d : T) : T :=
  s_abs (t_atan2 (t_sin d) (t_cos d)) ⊗ s_of_Z 180 ⊘ t_pi.

(** The body of the loop of [err_metric]: [abs_err] for one label. *)
Definition abs_err_of (self : LabelEncoder) (labels predictions : gmap string (list T))
    (label_name : string) : res (list T) :=
  if negb (mem label_name (periodic_label_names self)) then
    let* l := dict_get labels label_name in
    let* p := dict_get predictions label_name in
    let* d := tensor_zip s_sub l p in
    Ok (fmap (M:=list) (s_abs : T → T) d)
  else
    let* l := dict_get labels label_name in
    let targ_rot := (λ x : T, x ⊗ t_pi ⊘ s_of_Z 180) <$> l in
    let* p := dict_get predictions label_name in
    let pred_rot := (λ x : T, x ⊗ t_pi ⊘ s_of_Z 180) <$> p in
    let* d := tensor_zip s_sub targ_rot pred_rot in
    Ok (fmap (M:=list) circ_err d).

Fixpoint err_loop (self : LabelEncoder) (labels predictions : gmap string (list T))
    (targets : list string) (err_df : frame) : res frame :=
  match targets with
  | [] => Ok err_df
  | label_name :: rest =>
      let* abs_err := abs_err_of self labels predictions label_name in
      let* err_df' := frame_set err_df label_name (Some <$> abs_err) in
      err_loop self labels predictions rest err_df'
  end.

Definition err_metric (self : LabelEncoder) (labels predictions : gmap string (list T))
  : res frame :=
  err_loop self labels predictions (target_label_names self)
    (frame_new (label_names self)).

(** [abs_err < tolerence] on one cell; a missing value compares false. *)
Definition cell_lt (c : option T) (tolerence : pynum T) : bool :=
  match c with Some x => s_ltb x (num_val tolerence) | None => false end.

(** [astype(np.float32)] of a boolean. *)
Definition as_float32 (b : bool) : option T :=
  Some (s_of_Z (if b then 1 else 0)).

(** [abs_err < tolerence] on a column, and the column [astype] makes of it. *)
Definition series_lt (abs_err : list (option T)) (tolerence : pynum T) : list bool :=
  (λ c, cell_lt c tolerence) <$> abs_err.

Definition flags_of (abs_err : list (option T)) (tolerence : pynum T) : list (option T) :=
  as_float32 <$> series_lt abs_err tolerence.

Fixpoint acc_loop (err_df : frame) (pairs : list (string * pynum T))
    (overall_correct : list bool) (acc_df : frame) : res (list bool * frame) :=
  match pairs with
  | [] => Ok (overall_correct, acc_df)
  | (label_name, tolerence) :: rest =>
      let* abs_err := frame_get err_df label_name in
      let correct := series_lt abs_err tolerence in
      let overall_correct' := zip_with andb overall_correct correct in
      let* acc_df' := frame_set acc_df label_name (as_float32 <$> correct) in
      acc_loop err_df rest overall_correct' acc_df'
  end.

Definition acc_metric (self : LabelEncoder) (err_df : frame) : res frame :=
  let batch_size := f_rows err_df in
  let acc_df := frame_new (label_names self ++ ["overall_acc"]) in
  let overall_correct := replicate batch_size true in
  let* r := acc_loop err_df (zip (target_label_names self) (tolerences self))
              overall_correct acc_df in
  frame_set r.2 "overall_acc" (as_float32 <$> r.1).

(** Row [j] of the error frame is below the tolerance on the axis of a pair
    [(label_name, tolerence)]. *)
Definition row_ok (err_df : frame) (j : nat) (pair : string * pynum T) : bool :=
  match f_cols err_df !! pair.1 with
  | Some col => match col !! j with Some c => cell_lt c pair.2 | None => false end
  | None => false
  end.

(** Every column of a frame has as many cells as the frame has rows. *)
Definition frame_wf (df : frame) : Prop :=
  ∀ name col, f_cols df !! name = Some col → length col = f_rows df.

(** Every target has a label and a prediction tensor of [B] cells. *)
Definition batch_of (labels predictions : gmap string (list T)) (B : nat)
    (targets : list string) : Prop :=
  ∀ t, t ∈ targets →
    ∃ ls ps, labels !! t = Some ls ∧ predictions !! t = Some ps ∧
             length ls = B ∧ length ps = B.

Definition calc_batch_metrics (self : LabelEncoder)
    (labels predictions : gmap string (list T)) : res (frame * frame) :=
  let* err_df := err_metric self labels predictions in
  let* acc_df := acc_metric self err_df in
  Ok (err_df, acc_df).

End LabelEncoder.

Arguments LabelEncoder T : clear implicits.
Arguments frame T : clear implicits.

(** ** LabelledModel *)

Section LabelledModel.
Context {T : Type} `{Scalar T, Trig T}.

(** The encoder with another list of targets. *)
Definition with_targets (self : LabelEncoder T) (targets : list string) : LabelEncoder T :=
  {| label_names := label_names self; target_label_names := targets;
     periodic_label_names := periodic_label_names self;
     target_weights := target_weights self; tolerences := tolerences self;
     llims := llims self; ulims := ulims self |}.

(** [predictions_arr[i] = predicted_val] for a numpy array [predicted_val] of
    shape (B,): an array of one cell is stored as its cell, any other raises
    (setting an array element with a sequence); so does a position outside
    the array. *)
Definition array_set_item (predictions_arr : list T) (i : nat) (predicted_val : list T)
  : res (list T) :=
  match predicted_val with
  | [c] =>
      match predictions_arr !! i with
      | Some _ => Ok (<[i := c]> predictions_arr)
      | None => Raise IndexError
      end
  | _ => Raise ValueError
  end.

(** The loop of [predict] over [target_label_names], threading
    [predictions_arr]. *)
Fixpoint pack_loop (label_names : list string) (predictions_dict : gmap string (list T))
    (targets : list string) (predictions_arr : list T) : res (list T) :=
  match targets with
  | [] => Ok predictions_arr
  | label_name :: rest =>
      let* predicted_val := dict_get predictions_dict label_name in
      let* i := index label_names label_name in
      let* predictions_arr' := array_set_item predictions_arr i predicted_val in
      pack_loop label_names predictions_dict rest predictions_arr'
  end.

(** [model] stands for [process_image], the reshaping to a batch of one image
    and the network, all of them outside the repository: it takes the tactile
    image to the tensor [outputs]. *)
Record LabelledModel (Image : Type) := {
  model : Image → tensor2 T;
  label_encoder : LabelEncoder T
}.
Arguments model {Image}.
Arguments label_encoder {Image}.

(** [predict], from the outputs of the network on. *)
Definition predict_outputs (encoder : LabelEncoder T) (outputs : tensor2 T) : res (list T) :=
  let* predictions_dict := decode_label encoder outputs in
  pack_loop (label_names encoder) predictions_dict (target_label_names encoder)
    (replicate (length (label_names encoder)) (s_of_Z 0)).

Definition predict {Image} (self : LabelledModel Image) (tactile_image : Image)
  : res (list T) :=
  predict_outputs (label_encoder self) (model self tactile_image).

End LabelledModel.

Arguments model {T Image}.
Arguments label_encoder {T Image}.

(** ** Control parameters *)

Local Open Scope R_scope.

(** The entries of a [pid_params] dict.  [error] keeps the source text of the
    lambda that [eval] turns into a function handle. *)
Record PidParams := {
  kp : list R;
  ki : list R;
  ei_clip : list R * list R;
  error : string
}.

Record control_params := {
  ep_len : Z;
  pid_params : PidParams;
  ref_pose : list R
}.

Definition se3_error : string := "lambda y, r: transform_euler(r, y)".

(** [setup_control_params(task)] with [save_dir=None]; with a directory the
    same dict is also written to disk.  A task outside the four branches
    leaves [control_params] unbound. *)
Definition setup_control_params (task : string) : res control_params :=
  if decide (task = "surface_3d") then
    Ok {| ep_len := 500;
          pid_params := {| kp := [1; 1; 0.5; 0.5; 0.5; 1];
                           ki := [0; 0; 0.3; 0.1; 0.1; 0];
                           ei_clip := ([0; 0; 0; -30; -30; 0], [0; 0; 5; 30; 30; 0]);
                           error := se3_error |};
          ref_pose := [0; -1; 3; 0; 0; 0] |}
  else if decide (task = "edge_2d") then
    Ok {| ep_len := 50;
          pid_params := {| kp := [0.5; 1; 0; 0; 0; 0.5];
                           ki := [0.3; 0; 0; 0; 0; 0.1];
                           ei_clip := ([-5; 0; 0; 0; 0; -45], [5; 0; 0; 0; 0; 45]);
                           error := se3_error |};
          ref_pose := [0; 1; 0; 0; 0; 0] |}
  else if decide (task = "edge_3d") then
    Ok {| ep_len := 400;
          pid_params := {| kp := [0.5; 1; 0.5; 0; 0; 0.5];
                           ki := [0.3; 0; 0.3; 0; 0; 0.1];
                           ei_clip := ([0; -5; 0; 0; 0; -45], [0; 5; 5; 0; 0; 45]);
                           error := se3_error |};
          ref_pose := [0; 1; 3; 0; 0; 0] |}
  else if decide (task = "edge_5d") then
    Ok {| ep_len := 250;
          pid_params := {| kp := [1; 0.5; 0.5; 0.5; 0.5; 0.5];
                           ki := [0; 0.3; 0.3; 0.1; 0.1; 0.1];
                           ei_clip := ([0; -5; 0; -30; -30; -45], [0; 5; 5; 30; 30; 45]);
                           error := se3_error |};
          ref_pose := [1; 0; 3; 0; 0; 0] |}
  else Raise UnboundLocalError.

(** ** Environment parameters *)

(** The dict [env_params]; a key that only one of the two branches sets is an
    optional field. *)
Record env_params := {
  robot : string;
  tcp_pose : list Z;
  stim_name : string;
  stim_pose : option (list Z);
  show_gui : option bool;
  show_tactile : option bool;
  quick_mode : option bool;
  speed : option Z;
  model_type : string;
  work_frame : list Z
}.

(** The rows of [work_frame_df]: robot, task, stimulus, work frame. *)
Definition work_frame_df : list (string * string * string * list Z) :=
  [ ("CR", "edge", "circle", [0; -470; 65; -180; 0; 0]);
    ("Sim", "edge", "circle", [650; 0; 40 - 3; -180; 0; 0]);
    ("Sim", "edge", "saddle", [600; -65; 55 - 3; -180; 0; 0]);
    ("Sim", "surface", "saddle", [600; -65; 55 - 3; -180; 0; 0]);
    ("Sim", "edge", "bowl", [600; 0; 25; -180; 0; 0]) ]%Z.

(** [task[:-3]] *)
Definition drop_last3 (task : string) : string :=
  String.substring 0 (String.length task - 3) task.

(** [work_frame_df.query(query_str)['work_frame']] for the query that equates
    the three columns with the three names; the names are taken as the query
    string quotes them, which is as they are when they hold letters, digits
    and underscores only. *)
Definition query_work_frame (robot_name task_name stimulus : string) : list (list Z) :=
  omap (λ row : string * string * string * list Z,
          let '(r, t, s, wf) := row in
          if decide (r = robot_name ∧ t = task_name ∧ s = stimulus) then Some wf else None)
       work_frame_df.

(** [setup_env_params(robot, task, stimulus)] with [save_dir=None]; [.iloc[0]]
    of an empty selection raises [IndexError]. *)
Definition setup_env_params (robot_arg task stimulus : string) : res env_params :=
  let base :=
    if decide (robot_arg = "Sim") then
      {| robot := "Sim"; tcp_pose := [0; 0; 0; 0; 0; 0]%Z; stim_name := stimulus;
         stim_pose := Some [600; 0; 0; 0; 0; 0]%Z;
         show_gui := Some true; show_tactile := Some true; quick_mode := Some false;
         speed := None; model_type := "simple_cnn"; work_frame := [] |}
    else
      {| robot := "CR"; tcp_pose := [0; 0; -100; 0; 0; 0]%Z; stim_name := stimulus;
         stim_pose := None;
         show_gui := None; show_tactile := None; quick_mode := None;
         speed := Some 20%Z; model_type := "posenet_cnn"; work_frame := [] |} in
  match query_work_frame (robot base) (drop_last3 task) stimulus with
  | [] => Raise IndexError
  | wf :: _ =>
      Ok {| robot := robot base; tcp_pose := tcp_pose base; stim_name := stim_name base;
            stim_pose := stim_pose base; show_gui := show_gui base;
            show_tactile := show_tactile base; quick_mode := quick_mode base;
            speed := speed base; model_type := model_type base; work_frame := wf |}
  end.

(** ** PIDController *)

Module PID.

(** Modelled from the spec: the class PIDController is not among the source
    files; section 4.4 of the design document gives its two states and the
    update of [step].  [clip] bounds below first, then above, as numpy's. *)
Inductive state :=
  | Uninitialized
  | Running (integral_state : list R).

(** Modelled from the spec: [clip(x, lower, upper)] of the update of [step],
    on one axis and on a vector. *)
Definition clip (x lo hi : R) : R := Rmin (Rmax x lo) hi.

Definition clip_vec (x lower upper : list R) : list R :=
  zip_with (λ a b, clip a b.1 b.2) x (zip lower upper).

(** Modelled from the spec: [reset()] enters [Running] with the integral
    state zeroed, one scalar per axis. *)
Definition reset (p : PidParams) : state :=
  Running (replicate (length (ki p)) 0).

(** Modelled from the spec: [step(error_vector, dt)], defined in the state
    [Running] only. *)
Definition step (p : PidParams) (st : state) (error_vector : list R) (dt : R)
  : option (state * list R) :=
  match st with
  | Uninitialized => None
  | Running integral_state =>
      let proportional := zip_with Rmult (kp p) error_vector in
      let integral1 :=
        zip_with Rplus integral_state
          ((λ x, x * dt) <$> zip_with Rmult (ki p) error_vector) in
      let integral2 := clip_vec integral1 (ei_clip p).1 (ei_clip p).2 in
      Some (Running integral2, zip_with Rplus proportional integral2)
  end.

(** Modelled from the spec: the controller fed a sequence of errors; the
    result lists the state and the output after each step. *)
Fixpoint run (p : PidParams) (st : state) (errors : list (list R)) (dt : R)
  : option (list (state * list R)) :=
  match errors with
  | [] => Some []
  | e :: rest =>
      match step p st e dt with
      | None => None
      | Some (st', out) =>
          match run p st' rest dt with
          | None => None
          | Some tr => Some ((st', out) :: tr)
          end
      end
  end.

(** The integral state lies between the clip bounds on every axis. *)
Definition within_clip (p : PidParams) (st : state) : Prop :=
  match st with
  | Uninitialized => False
  | Running i =>
      length i = length (ei_clip p).1 ∧
      ∀ (k : nat) x lo hi,
        i !! k = Some x → (ei_clip p).1 !! k = Some lo →
        (ei_clip p).2 !! k = Some hi → lo <= x <= hi
  end.

End PID.

(** ** Sample configurations *)

(** One millimetre axis with limits 0 and 1000000, in binary32. *)
Definition enc_wide : LabelEncoder B32.t := {|
  label_names := ["x"]; target_label_names := ["x"];
  periodic_label_names := [];
  target_weights := [PyInt 1]; tolerences := np_ones 1;
  llims := [B32.of_Z 0]; ulims := [B32.of_Z 1000000] |}.

(** The edge task of the design document over exact arithmetic: limits of
    5 mm and 45 degrees, targets [x] and [yaw], [yaw] periodic. *)
Definition pose_names : list string := ["x"; "y"; "z"; "roll"; "pitch"; "yaw"].

Definition enc_edge : LabelEncoder R := {|
  label_names := pose_names; target_label_names := ["x"; "yaw"];
  periodic_label_names := ["yaw"];
  target_weights := [PyInt 1; PyInt 1]; tolerences := np_ones 2;
  llims := [-5; -5; -5; -45; -45; -45]; ulims := [5; 5; 5; 45; 45; 45] |}.

(** A single periodic target, [yaw], with a label of 179 degrees and a
    prediction of -179 degrees. *)
Definition enc_yaw : LabelEncoder R := {|
  label_names := pose_names; target_label_names := ["yaw"];
  periodic_label_names := ["yaw"];
  target_weights := [PyInt 1]; tolerences := np_ones 1;
  llims := [-5; -5; -5; -45; -45; -45]; ulims := [5; 5; 5; 45; 45; 45] |}.

Definition labels_179 : gmap string (list R) := {[ "yaw" := [179] ]}.
Definition predictions_m179 : gmap string (list R) := {[ "yaw" := [-179] ]}.

(** [enc_yaw] with the weight 2 read from a JSON list of integers, and with
    the default weights [np.ones(1)]. *)
Definition enc_yaw_w2 : LabelEncoder R := {|
  label_names := pose_names; target_label_names := ["yaw"];
  periodic_label_names := ["yaw"];
  target_weights := [PyInt 2]; tolerences := np_ones 1;
  llims := [-5; -5; -5; -45; -45; -45]; ulims := [5; 5; 5; 45; 45; 45] |}.

Definition enc_yaw_ones : LabelEncoder R := {|
  label_names := pose_names; target_label_names := ["yaw"];
  periodic_label_names := ["yaw"];
  target_weights := np_ones 1; tolerences := np_ones 1;
  llims := [-5; -5; -5; -45; -45; -45]; ulims := [5; 5; 5; 45; 45; 45] |}.

Definition labels_30 : gmap string (list R) := {[ "yaw" := [30] ]}.

(** One axis whose two limits are both 1, in binary32. *)
Definition enc_flat : LabelEncoder B32.t := {|
  label_names := ["x"]; target_label_names := ["x"];
  periodic_label_names := [];
  target_weights := [PyInt 1]; tolerences := np_ones 1;
  llims := [B32.of_Z 1]; ulims := [B32.of_Z 1] |}.

(** A decoded tensor [v'] gives back the label tensor [v]: cell by cell the
    same angle modulo 360, inside (-180, 180], on a periodic axis; the same
    tensor on any other. *)
Definition same_pose (periodic : bool) (v v' : list R) : Prop :=
  if periodic
  then Forall2 (λ θ a, (∃ k : Z, a = θ + 360 * IZR k) ∧ -180 < a <= 180) v v'
  else v' = v.

(** What the round trip through [encode_label] and [decode_label] asks of
    the (target, weight) pairs: a label tensor of [B] cells for every target,
    the integer weight 1 on a periodic target, and on any other a weight
    that is not zero and limits [llim < ulim]. *)
Definition codec_ready (self : LabelEncoder R) (labels_dict : gmap string (list R))
    (B : nat) (pairs : list (string * pynum R)) : Prop :=
  ∀ n w, (n, w) ∈ pairs →
    (∃ v, labels_dict !! n = Some v ∧ length v = B) ∧
    if mem n (periodic_label_names self)
    then w = PyInt 1
    else num_val w ≠ 0 ∧
         ∃ i l u, index (label_names self) n = Ok i ∧
                  llims self !! i = Some l ∧ ulims self !! i = Some u ∧ l < u.

(** Labels of one sample for [enc_edge]. *)
Definition labels_edge : gmap string (list R) := {[ "x" := [2.5]; "yaw" := [30] ]}.

(** Network outputs for [enc_edge], whose [out_dim] is 3: one row of two
    columns, of three, and of three with a fourth column. *)
Definition outputs2 : tensor2 R := Tensor2 1 [[0.5]; [0.5]].
Definition outputs3 : tensor2 R := Tensor2 1 [[0.5]; [0.5]; [0.5]].
Definition outputs4 : tensor2 R := Tensor2 1 [[0.5]; [0.5]; [0.5]; [7]].

(** A task document in binary32 without optional keys. *)
Definition task_doc : gmap string (jval B32.t) :=
  <["label_names" := JStrs ["x"; "y"]]>
  (<["target_label_names" := JStrs ["x"; "y"]]>
  (<["llims" := JNums [PyInt (-5); PyInt (-5)]]>
  (<["ulims" := JNums [PyInt 5; PyInt 5]]> ∅))).

(** A task document over exact arithmetic for the targets [x] and [yaw],
    without optional keys, and the thresholds 4 and 8 that a document may
    hold under the key [tolerances]. *)
Definition task_doc_edge : gmap string (jval R) :=
  <["label_names" := JStrs pose_names]>
  (<["target_label_names" := JStrs ["x"; "yaw"]]>
  (<["llims" := JNums [PyInt (-5); PyInt (-5); PyInt (-5);
                       PyInt (-45); PyInt (-45); PyInt (-45)]]>
  (<["ulims" := JNums [PyInt 5; PyInt 5; PyInt 5; PyInt 45; PyInt 45; PyInt 45]]> ∅))).

Definition doc_tolerances : jval R := JNums [PyInt 4; PyInt 8].

(** The encoder that [LabelEncoder_init] builds from [task_doc_edge]. *)
Definition enc_doc_edge : LabelEncoder R := {|
  label_names := pose_names; target_label_names := ["x"; "yaw"];
  periodic_label_names := [];
  target_weights := np_ones 2; tolerences := np_ones 2;
  llims := [-5; -5; -5; -45; -45; -45]; ulims := [5; 5; 5; 45; 45; 45] |}.

(** The error frame of two rows for [enc_edge]. *)
Definition err_sample : frame R :=
  Frame 2 (<["x" := [Some 0.5; Some 1]]> (<["yaw" := [Some 0.2; Some 3]]> ∅)).

(** The one-axis controller of the scenario of the design document. *)
Definition pid_scenario : PidParams := {|
  kp := [0.5]; ki := [0.3]; ei_clip := ([-5], [5]); error := se3_error |}.

(** A prediction tensor [v'] that hits the label tensor [v]: cell by cell the
    same angle modulo 360 on a periodic axis; the same tensor on any other. *)
Definition congruent_pose (periodic : bool) (v v' : list R) : Prop :=
  if periodic
  then Forall2 (λ θ a, ∃ k : Z, a = θ + 360 * IZR k) v v'
  else v' = v.

(** A labelled model over [enc_edge] whose network answers [outputs3] to any
    image. *)
Definition model_edge : LabelledModel (T:=R) unit :=
  {| model := λ _, outputs3; label_encoder := enc_edge |}.

(** A name of letters, digits and underscores: the query string of
    [setup_env_params] quotes such a name as it is. *)
Definition plain_char (c : Ascii.ascii) : bool :=
  let n := Ascii.nat_of_ascii c in
  ((48 <=? n) && (n <=? 57) || (65 <=? n) && (n <=? 90) ||
   (97 <=? n) && (n <=? 122) || (n =? 95))%nat.

Fixpoint plain_name (s : string) : bool :=
  match s with
  | EmptyString => true
  | String c s' => plain_char c && plain_name s'
  end.

(** Predictions for [labels_edge], a full turn away on [yaw]. *)
Definition predictions_edge : gmap string (list R) := {[ "x" := [2.5]; "yaw" := [390] ]}.

(** * Properties *)

(** ** Normalised encoding: round trip *)

Lemma norm_roundtrip_cell (llim ulim w v : R) :
  llim < ulim → w ≠ 0 →
  ((w * ((v - llim) / (ulim - llim) * 2 - 1)) / w + 1) / 2 * (ulim - llim) + llim = v.
Proof. intros Hlt Hw. field. split; [lra|done]. Qed.

(** C1 (as amended): over exact arithmetic, for a label with [llim < ulim]
    and a weight [w <> 0], [encode_norm] returns a column [col], and
    [decode_norm] applied to [(w * col) / w] returns the target tensor it
    started from, for every target value (inside the limits or not). *)
Theorem encode_decode_norm_roundtrip
    (self : LabelEncoder R) (label_name : string) (weight : pynum R)
    (target : list R) (i : nat) (llim ulim : R) :
  index (label_names self) label_name = Ok i →
  llims self !! i = Some llim →
  ulims self !! i = Some ulim →
  llim < ulim →
  num_val weight ≠ 0 →
  ∃ col, encode_norm self target label_name = Ok col ∧
         decode_norm self (tensor_div (tensor_rmul weight col) weight) label_name
         = Ok target.
Proof.
  intros Hi Hl Hu Hlt Hw.
  unfold encode_norm, decode_norm, getitem.
  rewrite Hi; simpl. rewrite Hl, Hu; simpl.
  eexists; split; [reflexivity|]. f_equal.
  unfold tensor_div, tensor_rmul.
  rewrite <- !list_fmap_compose.
  rewrite <- (list_fmap_id target) at 2.
  apply list_fmap_ext. intros _ v _. simpl.
  apply norm_roundtrip_cell; assumption.
Qed.

Lemma encode_decode_norm_roundtrip_witness :
  ∃ col, encode_norm enc_edge [2.5; -5] "x" = Ok col ∧
         decode_norm enc_edge (tensor_div (tensor_rmul (PyFloat 0.7) col) (PyFloat 0.7)) "x"
         = Ok [2.5; -5].
Proof.
  apply (encode_decode_norm_roundtrip enc_edge "x" (PyFloat 0.7) [2.5; -5] 0 (-5) 5);
    [reflexivity | reflexivity | reflexivity | lra | simpl; lra].
Defined.

(** C1, counterexample: in binary32, with limits 0 and 1000000 and weight 1,
    the value 643 is encoded and decoded to 643 + 61/4096, more than 1e-5
    away. *)
Lemma roundtrip_binary32_exceeds_1e5 :
  encode_norm enc_wide [B32.of_Z 643] "x" = Ok [S754_finite true 16755640 (-24)] ∧
  decode_norm enc_wide
    (tensor_div (tensor_rmul (PyInt 1) [S754_finite true 16755640 (-24)]) (PyInt 1)) "x"
  = Ok [S754_finite false 10535156 (-14)] ∧
  B32.to_Q (S754_finite false 10535156 (-14)) = Some (10535156 # 16384)%Q ∧
  (1 # 100000 < Qabs ((10535156 # 16384) - 643))%Q.
Proof. repeat split; vm_compute; reflexivity. Qed.

(** ** The two-argument arctangent *)

(** Decide the comparisons a goal branches on, closing the branches that
    contradict the context. *)
Ltac case_Rdec :=
  repeat match goal with
         | |- context [Rlt_dec ?a ?b] => destruct (Rlt_dec a b); try lra
         | |- context [Rle_dec ?a ?b] => destruct (Rle_dec a b); try lra
         end.

Lemma atan_nonpos (t : R) : t <= 0 → atan t <= 0.
Proof.
  intros [Ht| ->]; [|rewrite atan_0; lra].
  pose proof (atan_increasing t 0 Ht) as Hi. rewrite atan_0 in Hi. lra.
Qed.

Lemma atan_pos (t : R) : 0 < t → 0 < atan t.
Proof.
  intros Ht. pose proof (atan_increasing 0 t Ht) as Hi.
  rewrite atan_0 in Hi. exact Hi.
Qed.

Lemma atan2_bounds (y x : R) : - PI < atan2 y x <= PI.
Proof.
  pose proof PI_RGT_0 as Hpi.
  pose proof (atan_bound (y / x)) as Hb.
  unfold atan2.
  destruct (Rlt_dec 0 x) as [Hx|Hx]; [lra|].
  destruct (Rlt_dec x 0) as [Hx'|Hx'].
  - destruct (Rle_dec 0 y) as [Hy|Hy].
    + assert (y / x <= 0) as Hq.
      { unfold Rdiv. assert (/ x < 0) by (apply Rinv_lt_0_compat; exact Hx'). nra. }
      pose proof (atan_nonpos _ Hq). lra.
    + assert (0 < y / x) as Hq.
      { unfold Rdiv. assert (/ x < 0) by (apply Rinv_lt_0_compat; exact Hx'). nra. }
      pose proof (atan_pos _ Hq). lra.
  - destruct (Rlt_dec 0 y); [lra|]. destruct (Rlt_dec y 0); lra.
Qed.

(** On (-PI, PI] the arctangent of (sin a, cos a) is the angle itself. *)
Lemma atan2_sin_cos (a : R) : - PI < a <= PI → atan2 (sin a) (cos a) = a.
Proof.
  intros [Hlo Hhi]. pose proof PI_RGT_0 as Hpi. unfold atan2.
  destruct (Rtotal_order a (- (PI / 2))) as [Ha|[Ha|Ha]].
  - (* third quadrant *)
    assert (cos a < 0) as Hc.
    { rewrite <- cos_neg. apply cos_lt_0; lra. }
    assert (sin a < 0) as Hs.
    { rewrite <- (Ropp_involutive a), sin_neg.
      assert (0 < sin (- a)) by (apply sin_gt_0; lra). lra. }
    case_Rdec.
    change (sin a / cos a) with (tan a).
    rewrite <- (Rtrigo_facts.tan_pi_plus a) by lra.
    rewrite atan_tan by lra. lra.
  - subst a. rewrite cos_neg, sin_neg, cos_PI2, sin_PI2.
    case_Rdec.
  - destruct (Rtotal_order a (PI / 2)) as [Hb|[Hb|Hb]].
    + assert (0 < cos a) as Hc by (apply cos_gt_0; lra).
      case_Rdec.
      change (sin a / cos a) with (tan a). apply atan_tan; lra.
    + subst a. rewrite cos_PI2, sin_PI2. case_Rdec.
    + assert (cos a < 0) as Hc by (apply cos_lt_0; lra).
      assert (0 <= sin a) as Hs by (apply sin_ge_0; lra).
      case_Rdec.
      change (sin a / cos a) with (tan a).
      assert (cos (a - PI) ≠ 0) as Hc'.
      { replace (a - PI) with (- (PI - a)) by lra.
        rewrite cos_neg, Rtrigo_facts.cos_pi_minus. lra. }
      replace (tan a) with (tan (a - PI)).
      { rewrite atan_tan by lra. lra. }
      rewrite <- (Rtrigo_facts.tan_pi_plus (a - PI)) by exact Hc'.
      f_equal. lra.
Qed.

Lemma sin_cos_period_Z (x : R) (k : Z) :
  sin (x + 2 * IZR k * PI) = sin x ∧ cos (x + 2 * IZR k * PI) = cos x.
Proof.
  destruct (Z_le_gt_dec 0 k) as [Hk|Hk].
  - rewrite <- (Z2Nat.id k Hk), <- INR_IZR_INZ.
    split; [apply sin_period | apply cos_period].
  - assert (0 <= - k)%Z as Hk' by lia.
    pose proof (sin_period (x + 2 * IZR k * PI) (Z.to_nat (- k))) as Hs.
    pose proof (cos_period (x + 2 * IZR k * PI) (Z.to_nat (- k))) as Hc.
    rewrite INR_IZR_INZ, (Z2Nat.id _ Hk'), opp_IZR in Hs, Hc.
    replace (x + 2 * IZR k * PI + 2 * - IZR k * PI) with x in Hs, Hc by lra.
    split; congruence.
Qed.

(** Every angle has a representative in (-PI, PI]. *)
Lemma wrap_exists (a : R) : ∃ k : Z, - PI < a + 2 * IZR k * PI <= PI.
Proof.
  pose proof PI_RGT_0 as Hpi.
  destruct (euclidian_division (PI - a) (2 * PI)) as (k & r & Heq & Hr); [lra|].
  rewrite Rabs_pos_eq in Hr by lra.
  exists k. split; lra.
Qed.

Lemma atan2_sin_cos_shift (a : R) (k : Z) :
  - PI < a + 2 * IZR k * PI <= PI →
  atan2 (sin a) (cos a) = a + 2 * IZR k * PI.
Proof.
  intros Hb. destruct (sin_cos_period_Z a k) as [<- <-].
  apply atan2_sin_cos, Hb.
Qed.

(** Degrees and radians. *)
Lemma deg_of_shift (d : R) (k : Z) :
  (d * PI / 180 + 2 * IZR k * PI) * 180 / PI = d + 360 * IZR k.
Proof. pose proof PI_RGT_0. field. lra. Qed.

Lemma deg_bounds (r : R) :
  - PI < r <= PI → -180 < r * 180 / PI <= 180.
Proof.
  intros [Hlo Hhi]. pose proof PI_RGT_0 as Hpi.
  assert (0 < / PI) as Hinv by (apply Rinv_0_lt_compat; lra).
  replace (r * 180 / PI) with (180 * (r * / PI)) by (unfold Rdiv; ring).
  assert (-1 < r * / PI).
  { replace (-1) with (- PI * / PI) by (field; lra).
    apply Rmult_lt_compat_r; assumption. }
  assert (r * / PI <= 1).
  { replace 1 with (PI * / PI) by (field; lra).
    apply Rmult_le_compat_r; lra. }
  lra.
Qed.

(** The angle decoded from one (sin, cos) pair of an encoded angle. *)
Lemma circnorm_cell (θ : R) :
  let d := atan2 (sin (θ * PI / 180)) (cos (θ * PI / 180)) * 180 / PI in
  (∃ k : Z, d = θ + 360 * IZR k) ∧ -180 < d <= 180.
Proof.
  simpl. split.
  - destruct (wrap_exists (θ * PI / 180)) as [k Hk].
    exists k. rewrite (atan2_sin_cos_shift _ k Hk). apply deg_of_shift.
  - apply deg_bounds, atan2_bounds.
Qed.

(** Among the angles congruent to [x] modulo 360, one of absolute value at
    most 180 has the least absolute value. *)
Lemma wrapped_minimal (x : R) (m : Z) :
  Rabs x <= 180 → Rabs x <= Rabs (x + 360 * IZR m).
Proof.
  intros Hx.
  destruct (Z.eq_dec m 0%Z) as [->|Hm].
  { replace (x + 360 * 0) with x by lra. lra. }
  assert (IZR m <= -1 ∨ 1 <= IZR m) as [Hm'|Hm'].
  { destruct (Z_le_gt_dec m (-1)%Z) as [H|H].
    - left. apply (IZR_le m (-1)). exact H.
    - right. apply (IZR_le 1 m). lia. }
  - pose proof (Rabs_def2 x 181 ltac:(lra)) as [? ?].
    unfold Rabs at 2. destruct (Rcase_abs _); [|lra].
    revert Hx. unfold Rabs. destruct (Rcase_abs x); lra.
  - unfold Rabs at 2. destruct (Rcase_abs _).
    + revert Hx. unfold Rabs. destruct (Rcase_abs x); lra.
    + revert Hx. unfold Rabs. destruct (Rcase_abs x); lra.
Qed.

(** The error of one periodic cell, for a label [l] and a prediction [p] in
    degrees. *)
Lemma circ_err_cell (l p : R) :
  let e := circ_err (l * PI / 180 - p * PI / 180) in
  0 <= e <= 180 ∧
  ∃ k : Z, e = Rabs (l - p + 360 * IZR k) ∧
           ∀ k' : Z, e <= Rabs (l - p + 360 * IZR k').
Proof.
  simpl. unfold circ_err; simpl.
  set (δ := l * PI / 180 - p * PI / 180).
  pose proof PI_RGT_0 as Hpi.
  assert (∀ r, Rabs r * 180 / PI = Rabs (r * 180 / PI)) as Habs.
  { intros r. unfold Rdiv. rewrite !Rabs_mult.
    rewrite (Rabs_pos_eq 180) by lra.
    rewrite (Rabs_pos_eq (/ PI)); [reflexivity|].
    left. apply Rinv_0_lt_compat. lra. }
  rewrite Habs.
  pose proof (deg_bounds _ (atan2_bounds (sin δ) (cos δ))) as Hb.
  destruct (wrap_exists δ) as [k Hk].
  assert (atan2 (sin δ) (cos δ) * 180 / PI = l - p + 360 * IZR k) as Heq.
  { rewrite (atan2_sin_cos_shift _ k Hk). unfold δ.
    replace (l * PI / 180 - p * PI / 180) with ((l - p) * PI / 180) by lra.
    apply deg_of_shift. }
  split.
  - split; [apply Rabs_pos|]. unfold Rabs. destruct (Rcase_abs _); lra.
  - exists k. rewrite Heq. split; [reflexivity|].
    intros k'.
    replace (l - p + 360 * IZR k') with (l - p + 360 * IZR k + 360 * IZR (k' - k))
      by (rewrite minus_IZR; lra).
    apply wrapped_minimal. rewrite <- Heq.
    unfold Rabs. destruct (Rcase_abs _); lra.
Qed.

(** 179 degrees against -179 degrees: 2 degrees. *)
Lemma circ_err_179 : circ_err (179 * PI / 180 - -179 * PI / 180) = 2.
Proof.
  unfold circ_err; simpl. pose proof PI_RGT_0 as Hpi.
  rewrite (atan2_sin_cos_shift _ (-1)) by (split; lra).
  replace (179 * PI / 180 - -179 * PI / 180 + 2 * -1 * PI) with (- (2 * PI / 180)) by lra.
  rewrite Rabs_Ropp, Rabs_pos_eq by lra. field. lra.
Qed.

(** ** Results and frames *)

Lemma bind_Ok {A B} (m : res A) (f : A → res B) (b : B) :
  bind m f = Ok b → ∃ a, m = Ok a ∧ f a = Ok b.
Proof. destruct m as [a|e]; simpl; [eauto|discriminate]. Qed.

(** Split the hypotheses [bind m f = Ok b] of the context. *)
Ltac inv_bind :=
  repeat match goal with
         | H : bind _ _ = Ok _ |- _ =>
             let a := fresh "a" in
             let Ha := fresh "Ha" in
             apply bind_Ok in H; destruct H as (a & Ha & H)
         | H : Ok _ = Ok _ |- _ => injection H as H
         | H : Raise _ = Ok _ |- _ => discriminate H
         end.

Section Frames.
Context {T : Type} `{Scalar T, Trig T}.

Lemma tensor_zip_same (f : T → T → T) (a b : list T) :
  length a = length b → tensor_zip f a b = Ok (zip_with f a b).
Proof. intros Hl. unfold tensor_zip. rewrite decide_True; done. Qed.

Lemma Forall_fmap_all {A} (P : T → Prop) (g : A → T) (l : list A) :
  (∀ x, P (g x)) → Forall P (g <$> l).
Proof. intros Hg. induction l; simpl; constructor; auto. Qed.

Lemma tensor_zip_Forall (P : T → Prop) (f : T → T → T) (a b r : list T) :
  (∀ x y, P (f x y)) → tensor_zip f a b = Ok r → Forall P r.
Proof.
  intros Hf. unfold tensor_zip. destruct (decide _) as [_|_].
  - intros [= <-]. revert b.
    induction a as [|x a IH]; intros [|y b]; simpl; constructor; auto.
  - destruct a as [|x [|x' a]], b as [|y [|y' b]]; try discriminate;
      intros [= <-];
      repeat first [ apply Hf | exact I | apply Forall_nil | apply Forall_cons_2
                   | apply (Forall_fmap_all P); intros ? ].
Qed.

Lemma frame_set_fresh (df df' : frame T) (name : string) (col : list (option T)) :
  frame_set df name col = Ok df' →
  f_rows df = 0%nat ∨ f_rows df = length col →
  f_rows df' = length col ∧ f_cols df' !! name = Some col.
Proof.
  unfold frame_set. intros Hset Hrows.
  destruct (decide (f_rows df = 0%nat)) as [Hz|Hz].
  - injection Hset as <-. simpl. rewrite lookup_insert_eq. done.
  - destruct Hrows as [?|Hr]; [done|].
    rewrite decide_True in Hset by done.
    injection Hset as <-. simpl. rewrite lookup_insert_eq. done.
Qed.

Lemma frame_set_defined (df : frame T) (name : string) (col : list (option T)) :
  f_rows df = 0%nat ∨ f_rows df = length col →
  ∃ df', frame_set df name col = Ok df'.
Proof.
  unfold frame_set. intros Hrows.
  destruct (decide (f_rows df = 0%nat)); [eauto|].
  destruct Hrows as [?|Hr]; [done|]. rewrite decide_True by done. eauto.
Qed.

(** A column as long as the frame survives the assignment of another column
    of that length. *)
Lemma frame_set_keeps (df df' : frame T) (name other : string) (c col : list (option T)) :
  frame_set df other col = Ok df' →
  f_rows df = length c → length col = length c →
  f_cols df !! name = Some c → name ≠ other →
  (length c = 0%nat → c = replicate 0 None) →
  f_rows df' = length c ∧ f_cols df' !! name = Some c.
Proof.
  unfold frame_set. intros Hset Hrows Hcol Hc Hne Hnil.
  destruct (decide (f_rows df = 0%nat)) as [Hz|Hz].
  - injection Hset as <-. simpl. split; [done|].
    rewrite lookup_insert_ne by done. rewrite lookup_fmap, Hc. simpl.
    rewrite Hcol. f_equal. rewrite Hnil at 2 by lia.
    f_equal. lia.
  - rewrite decide_True in Hset by lia.
    injection Hset as <-. simpl. rewrite lookup_insert_ne by done. done.
Qed.

Section ErrLoop.
Variables (self : LabelEncoder T) (labels predictions : gmap string (list T)).
Variable B : nat.

Lemma abs_err_of_batch (targets : list string) (t : string) :
  batch_of labels predictions B targets → t ∈ targets →
  ∃ e, abs_err_of self labels predictions t = Ok e ∧ length e = B.
Proof.
  intros Hb Ht. destruct (Hb t Ht) as (ls & ps & Hl & Hp & Hls & Hps).
  unfold abs_err_of, dict_get. rewrite Hl, Hp. simpl.
  destruct (negb _); simpl.
  - rewrite tensor_zip_same by congruence. simpl. eexists; split; [done|].
    rewrite length_fmap, length_zip_with. lia.
  - rewrite tensor_zip_same by (rewrite !length_fmap; congruence). simpl.
    eexists; split; [done|].
    rewrite length_fmap, length_zip_with, !length_fmap. lia.
Qed.

Lemma err_loop_defined (targets : list string) (df : frame T) :
  batch_of labels predictions B targets → f_rows df = 0%nat ∨ f_rows df = B →
  ∃ df', err_loop self labels predictions targets df = Ok df' ∧
         (targets ≠ [] → f_rows df' = B).
Proof.
  revert df. induction targets as [|t rest IH]; intros df Hb Hrows; simpl.
  { eexists; split; [done|]. done. }
  destruct (abs_err_of_batch (t :: rest) t Hb) as (e & He & Hlen); [left|].
  rewrite He; simpl.
  assert (length (Some <$> e) = B) as Hlen' by (rewrite length_fmap; done).
  destruct (frame_set_defined df t (Some <$> e)) as [df1 Hset];
    [rewrite Hlen'; done|].
  rewrite Hset; simpl.
  destruct (frame_set_fresh _ _ _ _ Hset) as [Hr1 _]; [rewrite Hlen'; done|].
  destruct (IH df1) as (df' & Hloop & Hrows').
  { intros t' Ht'. apply Hb. right. done. }
  { right. congruence. }
  exists df'. split; [done|]. intros _.
  destruct rest as [|t' rest']; [|apply Hrows'; done].
  simpl in Hloop. injection Hloop as <-. congruence.
Qed.

Lemma err_loop_keeps (targets : list string) (df df' : frame T) (name : string) (e : list T) :
  batch_of labels predictions B targets →
  err_loop self labels predictions targets df = Ok df' →
  abs_err_of self labels predictions name = Ok e → length e = B →
  f_rows df = B → f_cols df !! name = Some (Some <$> e) →
  f_cols df' !! name = Some (Some <$> e).
Proof.
  revert df. induction targets as [|t rest IH]; intros df Hb Hloop He Hlen Hrows Hcol;
    simpl in Hloop.
  { injection Hloop as <-. done. }
  inv_bind.
  destruct (abs_err_of_batch (t :: rest) t Hb) as (e' & He' & Hlen'); [left|].
  assert (a = e') as -> by congruence.
  assert (∀ t', t' ∈ rest → t' ∈ t :: rest) as Hsub by (intros; right; done).
  destruct (decide (name = t)) as [->|Hne].
  - assert (e' = e) as -> by congruence.
    destruct (frame_set_fresh _ _ _ _ Ha0) as [Hr1 Hc1];
      [right; rewrite length_fmap; congruence|].
    apply (IH a0); auto.
    + intros t' Ht'. apply Hb, Hsub, Ht'.
    + rewrite Hr1, length_fmap. done.
  - destruct (frame_set_keeps _ _ name t (Some <$> e) _ Ha0) as [Hr1 Hc1]; auto.
    + rewrite length_fmap. congruence.
    + rewrite !length_fmap. congruence.
    + rewrite length_fmap. destruct e; [done|discriminate].
    + apply (IH a0); auto.
      * intros t' Ht'. apply Hb, Hsub, Ht'.
      * rewrite Hr1, length_fmap. done.
Qed.

Lemma err_loop_sets (targets : list string) (df df' : frame T) (name : string) (e : list T) :
  batch_of labels predictions B targets → name ∈ targets →
  f_rows df = 0%nat ∨ f_rows df = B →
  err_loop self labels predictions targets df = Ok df' →
  abs_err_of self labels predictions name = Ok e →
  f_cols df' !! name = Some (Some <$> e).
Proof.
  revert df. induction targets as [|t rest IH]; intros df Hb Hin Hrows Hloop He.
  { inversion Hin. }
  destruct (abs_err_of_batch (t :: rest) name Hb Hin) as (e0 & He0 & Hlen).
  assert (e0 = e) as -> by congruence.
  simpl in Hloop. inv_bind.
  destruct (abs_err_of_batch (t :: rest) t Hb) as (e' & He' & Hlen'); [left|].
  assert (a = e') as -> by congruence.
  assert (batch_of labels predictions B rest) as Hb'.
  { intros t' Ht'. apply Hb. right. done. }
  destruct (frame_set_fresh _ _ _ _ Ha0) as [Hr1 Hc1];
    [rewrite length_fmap, Hlen'; done|].
  rewrite length_fmap, Hlen' in Hr1.
  destruct (decide (name = t)) as [->|Hne].
  - assert (e' = e) as -> by congruence.
    apply (err_loop_keeps rest a0); auto.
  - apply (IH a0); auto.
    apply elem_of_cons in Hin as [?|?]; done.
Qed.

End ErrLoop.
End Frames.

(** ** Circular encoding: round trip *)

Lemma circnorm_roundtrip_cells (target : list R) :
  Forall2 (λ θ d, (∃ k : Z, d = θ + 360 * IZR k) ∧ -180 < d <= 180) target
    ((λ a, a * 180 / PI) <$>
       zip_with atan2 (sin <$> ((λ t, t * PI / 180) <$> target))
                      (cos <$> ((λ t, t * PI / 180) <$> target))).
Proof.
  induction target as [|θ target IH]; simpl; constructor; [|exact IH].
  apply circnorm_cell.
Qed.

(** C2: over exact arithmetic, for every tensor of angles in degrees,
    [decode_circnorm] of [encode_circnorm] returns, cell by cell, an angle
    congruent to the input modulo 360 and inside (-180, 180]; and whatever
    the two tensors handed to [decode_circnorm] hold, every decoded angle
    lies in (-180, 180].  In binary32 the end -180 is reached, see
    [decode_circnorm_binary32_reaches_m180]. *)
Theorem circnorm_roundtrip (target : list R) :
  (∃ decoded,
     decode_circnorm (encode_circnorm target) = Ok decoded ∧
     Forall2 (λ θ d, (∃ k : Z, d = θ + 360 * IZR k) ∧ -180 < d <= 180)
       target decoded) ∧
  (∀ y x decoded,
     decode_circnorm [y; x] = Ok decoded →
     Forall (λ d, -180 < d <= 180) decoded).
Proof.
  split.
  - unfold encode_circnorm, decode_circnorm.
    rewrite tensor_zip_same by (rewrite !length_fmap; reflexivity).
    simpl. eexists; split; [reflexivity|]. apply circnorm_roundtrip_cells.
  - intros y x decoded Hd. unfold decode_circnorm in Hd. inv_bind. subst decoded.
    apply (tensor_zip_Forall (λ r, - PI < r <= PI)) in Ha; [|apply atan2_bounds].
    induction Ha as [|r l Hr _ IH]; simpl; constructor; [|exact IH].
    apply deg_bounds, Hr.
Qed.

(** C2, counterexample: in binary32, whatever the library computes on
    ordinary arguments, the pair (sin, cos) = (-0.0, -1.0) is decoded to
    -180.0: [atan2] gives the binary32 -pi, and -pi * 180 / pi is -180
    exactly, outside (-180, 180]. *)
Lemma decode_circnorm_binary32_reaches_m180 :
  B32.to_Q (S754_finite true 11796480 (-16)) = Some (-11796480 # 65536)%Q ∧
  (-11796480 # 65536 == -180)%Q ∧
  ∀ l : B32.libm,
    @decode_circnorm B32.t B32_scalar (B32_trig l) [[S754_zero true]; [B32.of_Z (-1)]]
    = Ok [S754_finite true 11796480 (-16)].
Proof. split; [|split; [|intros l]]; vm_compute; reflexivity. Qed.

(** ** Error metric on a periodic axis *)

Lemma err_metric_periodic_cols (self : LabelEncoder R)
    (labels predictions : gmap string (list R)) (B : nat) :
  batch_of labels predictions B (target_label_names self) →
  ∃ err_df,
    err_metric self labels predictions = Ok err_df ∧
    ∀ name ls ps,
      name ∈ target_label_names self → name ∈ periodic_label_names self →
      labels !! name = Some ls → predictions !! name = Some ps →
      f_cols err_df !! name =
        Some (Some <$> zip_with (λ l p, circ_err (l * PI / 180 - p * PI / 180)) ls ps).
Proof.
  intros Hb. unfold err_metric.
  destruct (err_loop_defined self labels predictions B _ (frame_new (label_names self)) Hb)
    as (df & Hloop & _); [left; reflexivity|].
  exists df. split; [exact Hloop|].
  intros name ls ps Ht Hp Hl Hpred.
  destruct (Hb name Ht) as (ls' & ps' & Hl' & Hp' & Hlen & Hlen').
  assert (ls' = ls) as -> by congruence. assert (ps' = ps) as -> by congruence.
  eapply (err_loop_sets self labels predictions B); eauto; [left; reflexivity|].
  unfold abs_err_of, mem, dict_get. rewrite bool_decide_true by exact Hp. simpl.
  rewrite Hl, Hpred. simpl.
  rewrite tensor_zip_same by (rewrite !length_fmap; congruence). simpl.
  f_equal. clear -Hlen Hlen'. subst B. revert ps Hlen'.
  induction ls as [|l ls IH]; intros [|p ps] Hlen; simpl in *; try done.
  f_equal. apply IH. lia.
Qed.

(** C3: when every target has a label and a prediction tensor of the same
    batch size, [err_metric] returns a frame whose column for a periodic
    target holds, cell by cell, |atan2(sin d, cos d)| * 180 / pi for the
    difference d of the two angles in radians; that value lies in [0, 180],
    is |l - p + 360 k| for an integer k, and no other k gives a smaller one.
    For the label 179 and the prediction -179 the cell is 2. *)
Theorem err_metric_periodic (self : LabelEncoder R)
    (labels predictions : gmap string (list R)) (B : nat) :
  batch_of labels predictions B (target_label_names self) →
  (∃ err_df,
     err_metric self labels predictions = Ok err_df ∧
     ∀ name ls ps,
       name ∈ target_label_names self → name ∈ periodic_label_names self →
       labels !! name = Some ls → predictions !! name = Some ps →
       ∃ errs,
         f_cols err_df !! name = Some (Some <$> errs) ∧
         errs = zip_with (λ l p,
                  Rabs (atan2 (sin (l * PI / 180 - p * PI / 180))
                              (cos (l * PI / 180 - p * PI / 180))) * 180 / PI) ls ps ∧
         ∀ i l p, ls !! i = Some l → ps !! i = Some p →
           ∃ e, errs !! i = Some e ∧ 0 <= e <= 180 ∧
                ∃ k : Z, e = Rabs (l - p + 360 * IZR k) ∧
                         ∀ k' : Z, e <= Rabs (l - p + 360 * IZR k')) ∧
  (∃ err_df,
     err_metric enc_yaw labels_179 predictions_m179 = Ok err_df ∧
     f_cols err_df !! "yaw" = Some [Some 2]).
Proof.
  intros Hb. split.
  - destruct (err_metric_periodic_cols self labels predictions B Hb) as (df & Hdf & Hcols).
    exists df. split; [exact Hdf|].
    intros name ls ps Ht Hp Hl Hpred.
    eexists. split; [apply (Hcols name ls ps); assumption|].
    split; [reflexivity|].
    intros i l p Hi Hj.
    exists (circ_err (l * PI / 180 - p * PI / 180)). split.
    + rewrite lookup_zip_with, Hi. simpl. rewrite Hj. reflexivity.
    + apply circ_err_cell.
  - destruct (err_metric_periodic_cols enc_yaw labels_179 predictions_m179 1)
      as (df & Hdf & Hcols).
    { intros t Ht. apply list_elem_of_singleton in Ht as ->.
      exists [179], [-179]. repeat split; reflexivity. }
    exists df. split; [exact Hdf|].
    rewrite (Hcols "yaw" [179] [-179]);
      [|apply list_elem_of_singleton; reflexivity
       |apply list_elem_of_singleton; reflexivity
       |reflexivity|reflexivity].
    rewrite <- circ_err_179. reflexivity.
Qed.

Lemma err_metric_periodic_witness :
  ∃ err_df,
    err_metric enc_yaw labels_179 predictions_m179 = Ok err_df ∧
    f_cols err_df !! "yaw" = Some [Some 2].
Proof.
  refine (proj2 (err_metric_periodic enc_yaw labels_179 predictions_m179 1 _)).
  intros t Ht. apply list_elem_of_singleton in Ht as ->.
  exists [179], [-179]. repeat split; reflexivity.
Defined.

(** ** PI controller: the integral state stays inside the clip bounds *)

Lemma clip_bounds (x lo hi : R) : lo <= hi → lo <= PID.clip x lo hi <= hi.
Proof.
  intros Hle. unfold PID.clip, Rmin, Rmax.
  destruct (Rle_dec x lo); case_Rdec.
Qed.

Lemma clip_inside (x lo hi : R) : lo <= x <= hi → PID.clip x lo hi = x.
Proof.
  intros Hle. unfold PID.clip, Rmin, Rmax.
  destruct (Rle_dec x lo); case_Rdec.
Qed.

Lemma step_within_clip (p : PidParams) (i e : list R) (dt : R) (n : nat) :
  length (ki p) = n → length (ei_clip p).1 = n → length (ei_clip p).2 = n →
  Forall2 Rle (ei_clip p).1 (ei_clip p).2 →
  length i = n → length e = n →
  ∃ i' out, PID.step p (PID.Running i) e dt = Some (PID.Running i', out) ∧
            length i' = n ∧ PID.within_clip p (PID.Running i').
Proof.
  intros Hki Hlo Hhi Hle Hi He. simpl. eexists _, _. split; [reflexivity|].
  assert (length (PID.clip_vec
            (zip_with Rplus i ((λ x, x * dt) <$> zip_with Rmult (ki p) e))
            (ei_clip p).1 (ei_clip p).2) = n) as Hlen.
  { unfold PID.clip_vec.
    rewrite !length_zip_with, length_fmap, !length_zip_with. lia. }
  split; [exact Hlen|]. simpl. split; [congruence|].
  intros k x lo hi Hx Hl Hh. unfold PID.clip_vec in Hx.
  apply lookup_zip_with_Some in Hx as (a & [lo' hi'] & -> & _ & Hz).
  apply lookup_zip_with_Some in Hz as (lo'' & hi'' & [= <- <-] & Hl' & Hh').
  simpl. rewrite Hl in Hl'. rewrite Hh in Hh'.
  injection Hl' as <-. injection Hh' as <-.
  apply clip_bounds. eapply Forall2_lookup_lr; eauto.
Qed.

Lemma run_within_clip (p : PidParams) (dt : R) (n : nat) (errors : list (list R)) (i : list R) :
  length (ki p) = n → length (ei_clip p).1 = n → length (ei_clip p).2 = n →
  Forall2 Rle (ei_clip p).1 (ei_clip p).2 →
  Forall (λ e, length e = n) errors → length i = n →
  ∃ trace, PID.run p (PID.Running i) errors dt = Some trace ∧
           length trace = length errors ∧
           Forall (λ so, PID.within_clip p so.1) trace.
Proof.
  intros Hki Hlo Hhi Hle Herr. revert i.
  induction Herr as [|e errors He _ IH]; intros i Hi.
  { exists []. repeat split; constructor. }
  destruct (step_within_clip p i e dt n) as (i' & out & Hstep & Hi' & Hw); auto.
  destruct (IH i' Hi') as (trace & Hrun & Hlen & Hall).
  exists ((PID.Running i', out) :: trace).
  cbn [PID.run]. rewrite Hstep, Hrun. repeat split.
  - simpl. congruence.
  - constructor; assumption.
Qed.

Lemma pid_scenario_run :
  PID.run pid_scenario (PID.reset pid_scenario) [[2]; [2]; [2]] 1 =
  Some [(PID.Running [0.6], [1.6]); (PID.Running [1.2], [2.2]);
        (PID.Running [1.8], [2.8])].
Proof.
  cbn -[PID.clip Rplus Rmult].
  replace (0 + 0.3 * 2 * 1) with 0.6 by lra.
  rewrite (clip_inside 0.6) by lra.
  replace (0.6 + 0.3 * 2 * 1) with 1.2 by lra.
  rewrite (clip_inside 1.2) by lra.
  replace (1.2 + 0.3 * 2 * 1) with 1.8 by lra.
  rewrite (clip_inside 1.8) by lra.
  replace (0.5 * 2 + 0.6) with 1.6 by lra.
  replace (0.5 * 2 + 1.2) with 2.2 by lra.
  replace (0.5 * 2 + 1.8) with 2.8 by lra.
  reflexivity.
Qed.

(** C4: with clip bounds [lower <= upper] on every axis, the controller
    started by [reset] and fed any sequence of error vectors, with any [dt],
    takes every step, and after each step the integral state lies between
    the bounds on every axis.  With kp = [0.5], ki = [0.3], bounds -5 and 5,
    dt = 1 and the errors 2, 2, 2, the integral after the third step is 1.8
    and the output 2.8. *)
Theorem pid_integral_within_clip (p : PidParams) (dt : R) (n : nat)
    (errors : list (list R)) :
  length (kp p) = n → length (ki p) = n →
  length (ei_clip p).1 = n → length (ei_clip p).2 = n →
  Forall2 Rle (ei_clip p).1 (ei_clip p).2 →
  Forall (λ e, length e = n) errors →
  (∃ trace, PID.run p (PID.reset p) errors dt = Some trace ∧
            length trace = length errors ∧
            Forall (λ so, PID.within_clip p so.1) trace) ∧
  (∃ trace, PID.run pid_scenario (PID.reset pid_scenario) [[2]; [2]; [2]] 1 = Some trace ∧
            trace !! 2%nat = Some (PID.Running [1.8], [2.8])).
Proof.
  intros Hkp Hki Hlo Hhi Hle Herr. split.
  - apply (run_within_clip p dt n); auto.
    unfold PID.reset. rewrite length_replicate. exact Hki.
  - eexists. split; [apply pid_scenario_run|]. reflexivity.
Qed.

Lemma pid_integral_within_clip_witness :
  ∃ trace, PID.run pid_scenario (PID.reset pid_scenario) [[100]; [100]; [100]] 1 = Some trace ∧
           length trace = 3%nat ∧
           Forall (λ so, PID.within_clip pid_scenario so.1) trace.
Proof.
  refine (proj1 (pid_integral_within_clip pid_scenario 1 1 [[100]; [100]; [100]] _ _ _ _ _ _));
    try reflexivity.
  - cbn [ei_clip pid_scenario fst snd].
    apply List.Forall2_cons; [lra|]. apply List.Forall2_nil.
  - apply List.Forall_cons; [reflexivity|].
    apply List.Forall_cons; [reflexivity|].
    apply List.Forall_cons; [reflexivity|]. apply List.Forall_nil.
Defined.

(** ** Accuracy metric *)

Section AccLoop.
Context {T : Type} `{Scalar T, Trig T}.
Variable err_df : frame T.
Hypothesis Hwf : frame_wf err_df.

Lemma acc_loop_defined (pairs : list (string * pynum T)) (ov : list bool) (acc : frame T) :
  (∀ pr, pr ∈ pairs → is_Some (f_cols err_df !! pr.1)) →
  f_rows acc = 0%nat ∨ f_rows acc = f_rows err_df →
  ∃ ov' acc', acc_loop err_df pairs ov acc = Ok (ov', acc') ∧
              (f_rows acc' = 0%nat ∨ f_rows acc' = f_rows err_df).
Proof.
  revert ov acc. induction pairs as [|[n t] rest IH]; intros ov acc Hcols Hrows; simpl.
  { eauto. }
  destruct (Hcols (n, t)) as [col Hcol]; [left|]. simpl in Hcol.
  unfold frame_get, dict_get. rewrite Hcol. simpl.
  assert (length (as_float32 <$> series_lt col t) = f_rows err_df) as Hlen.
  { unfold series_lt. rewrite !length_fmap. apply (Hwf n), Hcol. }
  destruct (frame_set_defined acc n (as_float32 <$> series_lt col t)) as [acc1 Hset];
    [rewrite Hlen; exact Hrows|].
  rewrite Hset. simpl.
  destruct (frame_set_fresh _ _ _ _ Hset) as [Hr1 _]; [rewrite Hlen; exact Hrows|].
  apply IH.
  - intros pr Hpr. apply Hcols. right. exact Hpr.
  - right. congruence.
Qed.

Lemma acc_loop_overall (pairs : list (string * pynum T)) (ov ov' : list bool)
    (acc acc' : frame T) :
  acc_loop err_df pairs ov acc = Ok (ov', acc') →
  length ov = f_rows err_df →
  length ov' = f_rows err_df ∧
  ∀ j b, ov !! j = Some b →
         ov' !! j = Some (b && forallb (row_ok err_df j) pairs).
Proof.
  revert ov acc. induction pairs as [|[n t] rest IH]; intros ov acc Hloop Hlen;
    simpl in Hloop.
  { injection Hloop as <- <-. split; [exact Hlen|].
    intros j b Hj. simpl. rewrite andb_true_r. exact Hj. }
  inv_bind. unfold frame_get, dict_get in Ha.
  destruct (f_cols err_df !! n) as [col|] eqn:Hcol; [|discriminate].
  injection Ha as <-.
  pose proof (Hwf n col Hcol) as Hlc.
  destruct (IH _ _ Hloop) as [Hlen' Hov'].
  { unfold series_lt. rewrite length_zip_with, length_fmap. lia. }
  split; [exact Hlen'|].
  intros j b Hj.
  assert (is_Some (col !! j)) as [c Hc].
  { apply lookup_lt_is_Some. rewrite Hlc, <- Hlen. eapply lookup_lt_Some, Hj. }
  rewrite (Hov' j (b && cell_lt c t)).
  - f_equal. simpl. unfold row_ok at 2. simpl. rewrite Hcol, Hc.
    rewrite andb_assoc. reflexivity.
  - rewrite lookup_zip_with, Hj. simpl. unfold series_lt.
    rewrite list_lookup_fmap, Hc. reflexivity.
Qed.

(** A column already holding the flags of [name] still holds them after the
    loop, when every tolerance paired with [name] is [tol]. *)
Lemma acc_loop_keeps (pairs : list (string * pynum T)) (ov ov' : list bool)
    (acc acc' : frame T) (name : string) (tol : pynum T) (col : list (option T)) :
  acc_loop err_df pairs ov acc = Ok (ov', acc') →
  (∀ tol', (name, tol') ∈ pairs → tol' = tol) →
  f_cols err_df !! name = Some col →
  f_rows acc = f_rows err_df →
  f_cols acc !! name = Some (flags_of col tol) →
  f_rows acc' = f_rows err_df ∧ f_cols acc' !! name = Some (flags_of col tol).
Proof.
  revert ov acc. induction pairs as [|[n t] rest IH];
    intros ov acc Hloop Hsame Hcol Hrows Hacc; simpl in Hloop.
  { injection Hloop as <- <-. done. }
  inv_bind. unfold frame_get, dict_get in Ha.
  destruct (f_cols err_df !! n) as [coln|] eqn:Hcoln; [|discriminate].
  injection Ha as <-.
  pose proof (Hwf n coln Hcoln) as Hln. pose proof (Hwf name col Hcol) as Hlc.
  assert (∀ tol', (name, tol') ∈ rest → tol' = tol) as Hsame'.
  { intros tol' Hin. apply Hsame. right. exact Hin. }
  assert (length (flags_of col tol) = f_rows err_df) as Hlf.
  { unfold flags_of, series_lt. rewrite !length_fmap. exact Hlc. }
  destruct (decide (name = n)) as [->|Hne].
  - assert (t = tol) as -> by (apply Hsame; left).
    assert (coln = col) as -> by congruence.
    destruct (frame_set_fresh _ _ _ _ Ha0) as [Hr1 Hc1].
    { right. fold (flags_of col tol). congruence. }
    apply (IH _ _ Hloop); auto.
    fold (flags_of col tol) in Hr1. congruence.
  - destruct (frame_set_keeps _ _ name n (flags_of col tol) _ Ha0) as [Hr1 Hc1]; auto.
    + congruence.
    + unfold series_lt. rewrite !length_fmap. congruence.
    + intros Hz. destruct (flags_of col tol); [done|discriminate].
    + apply (IH _ _ Hloop); auto. congruence.
Qed.

Lemma acc_loop_sets (pairs : list (string * pynum T)) (ov ov' : list bool)
    (acc acc' : frame T) (name : string) (tol : pynum T) (col : list (option T)) :
  acc_loop err_df pairs ov acc = Ok (ov', acc') →
  (name, tol) ∈ pairs →
  (∀ tol', (name, tol') ∈ pairs → tol' = tol) →
  f_cols err_df !! name = Some col →
  f_rows acc = 0%nat ∨ f_rows acc = f_rows err_df →
  f_rows acc' = f_rows err_df ∧ f_cols acc' !! name = Some (flags_of col tol).
Proof.
  revert ov acc. induction pairs as [|[n t] rest IH];
    intros ov acc Hloop Hin Hsame Hcol Hrows; simpl in Hloop.
  { inversion Hin. }
  inv_bind. unfold frame_get, dict_get in Ha.
  destruct (f_cols err_df !! n) as [coln|] eqn:Hcoln; [|discriminate].
  injection Ha as <-.
  pose proof (Hwf n coln Hcoln) as Hln.
  assert (∀ tol', (name, tol') ∈ rest → tol' = tol) as Hsame'.
  { intros tol' Hin'. apply Hsame. right. exact Hin'. }
  assert (length (as_float32 <$> series_lt coln t) = f_rows err_df) as Hlf.
  { unfold series_lt. rewrite !length_fmap. exact Hln. }
  destruct (frame_set_fresh _ _ _ _ Ha0) as [Hr1 Hc1]; [rewrite Hlf; exact Hrows|].
  rewrite Hlf in Hr1.
  destruct (decide (name = n)) as [->|Hne].
  - assert (t = tol) as -> by (apply Hsame; left).
    assert (coln = col) as -> by congruence.
    apply (acc_loop_keeps rest _ _ _ _ n tol col Hloop); auto.
  - apply (IH _ _ Hloop); auto.
    apply elem_of_cons in Hin as [[= ? ?]|?]; done.
Qed.

End AccLoop.

Section AccMetric.
Context {T : Type} `{Scalar T, Trig T}.

Lemma acc_metric_cols (self : LabelEncoder T) (err_df : frame T) :
  frame_wf err_df →
  (∀ pr, pr ∈ zip (target_label_names self) (tolerences self) →
         is_Some (f_cols err_df !! pr.1)) →
  ∃ acc_df,
    acc_metric self err_df = Ok acc_df ∧
    (∀ name tol col,
       (name, tol) ∈ zip (target_label_names self) (tolerences self) →
       (∀ tol', (name, tol') ∈ zip (target_label_names self) (tolerences self) →
                tol' = tol) →
       name ≠ "overall_acc" →
       f_cols err_df !! name = Some col →
       f_cols acc_df !! name = Some (flags_of col tol)) ∧
    ∃ ov,
      f_cols acc_df !! "overall_acc" = Some (as_float32 <$> ov) ∧
      length ov = f_rows err_df ∧
      ∀ j, (j < f_rows err_df)%nat →
           ov !! j = Some (forallb (row_ok err_df j)
                             (zip (target_label_names self) (tolerences self))).
Proof.
  intros Hwf Hcols. unfold acc_metric.
  set (pairs := zip (target_label_names self) (tolerences self)) in *.
  destruct (acc_loop_defined err_df Hwf pairs (replicate (f_rows err_df) true)
              (frame_new (label_names self ++ ["overall_acc"])) Hcols)
    as (ov & acc1 & Hloop & Hrows); [left; reflexivity|].
  rewrite Hloop. simpl.
  destruct (acc_loop_overall err_df Hwf _ _ _ _ _ Hloop) as [Hlen Hov];
    [apply length_replicate|].
  assert (length (as_float32 <$> ov) = f_rows err_df) as Hlen'
    by (rewrite length_fmap; exact Hlen).
  destruct (frame_set_defined acc1 "overall_acc" (as_float32 <$> ov)) as [acc_df Hset];
    [rewrite Hlen'; exact Hrows|].
  exists acc_df. split; [exact Hset|]. split.
  - intros name tol col Hin Hsame Hne Hcol.
    destruct (acc_loop_sets err_df Hwf _ _ _ _ _ name tol col Hloop) as [Hr1 Hc1];
      auto; try (left; reflexivity).
    assert (length (flags_of col tol) = f_rows err_df) as Hlf.
    { unfold flags_of, series_lt. rewrite !length_fmap. apply (Hwf name), Hcol. }
    destruct (frame_set_keeps _ _ name "overall_acc" (flags_of col tol) _ Hset)
      as [_ Hc]; auto; try congruence.
    intros Hz. destruct (flags_of col tol); [done|discriminate].
  - exists ov. split; [|split; [exact Hlen|]].
    + destruct (frame_set_fresh _ _ _ _ Hset) as [_ Hc]; [rewrite Hlen'; exact Hrows|].
      exact Hc.
    + intros j Hj. rewrite (Hov j true); [reflexivity|].
      apply lookup_replicate_2. exact Hj.
Qed.

End AccMetric.

Lemma zip_pair_unique {A B} (l : list A) (k : list B) (x : A) (a b : B) :
  NoDup l → (x, a) ∈ zip l k → (x, b) ∈ zip l k → a = b.
Proof.
  intros Hnd Ha Hb.
  apply elem_of_lookup_zip_with in Ha as (i & x1 & a1 & [= <- <-] & Hi & Hia).
  apply elem_of_lookup_zip_with in Hb as (j & x2 & b2 & [= <- <-] & Hj & Hjb).
  assert (i = j) as -> by (eapply NoDup_lookup; eauto).
  congruence.
Qed.

Lemma zip_pair_exists {A B} (l : list A) (k : list B) (x : A) :
  length l = length k → x ∈ l → ∃ a, (x, a) ∈ zip l k.
Proof.
  intros Hlen Hx. apply list_elem_of_lookup in Hx as [i Hi].
  destruct (lookup_lt_is_Some_2 k i) as [a Ha].
  { rewrite <- Hlen. eapply lookup_lt_Some, Hi. }
  exists a. apply elem_of_lookup_zip_with. exists i, x, a. done.
Qed.

Lemma Rltb_spec (x y : R) : Rltb x y = true ↔ x < y.
Proof. unfold Rltb. destruct (Rlt_dec x y); split; intros; try done. Qed.

(** The flag of one cell: 1 below the tolerance, 0 from the tolerance on and
    for a missing value. *)
Lemma flags_of_cell (col : list (option R)) (tol : pynum R) (j : nat) (e : R) :
  col !! j = Some (Some e) →
  (e < num_val tol → flags_of col tol !! j = Some (Some 1)) ∧
  (num_val tol <= e → flags_of col tol !! j = Some (Some 0)).
Proof.
  intros Hj. unfold flags_of, series_lt. rewrite !list_lookup_fmap, Hj.
  cbn [fmap option_fmap option_map cell_lt as_float32 s_ltb s_of_Z R_scalar].
  unfold Rltb. destruct (Rlt_dec e (num_val tol)); split; intros; try lra; reflexivity.
Qed.

Lemma flags_of_missing (col : list (option R)) (tol : pynum R) (j : nat) :
  col !! j = Some None → flags_of col tol !! j = Some (Some 0).
Proof.
  intros Hj. unfold flags_of, series_lt. rewrite !list_lookup_fmap, Hj. reflexivity.
Qed.

Lemma length_flags_of (col : list (option R)) (tol : pynum R) :
  length (flags_of col tol) = length col.
Proof. unfold flags_of, series_lt. rewrite !length_fmap. reflexivity. Qed.

Lemma list_two_eq {A} (l : list A) (a b : A) :
  length l = 2%nat → l !! 0%nat = Some a → l !! 1%nat = Some b → l = [a; b].
Proof.
  destruct l as [|x [|y [|z l]]]; simpl; try discriminate.
  intros _ [= ->] [= ->]. reflexivity.
Qed.

(** C5: on a well-formed error frame with a column for every target, with
    distinct target names and one tolerance per target, [acc_metric] returns
    a frame in which the flag of a target axis on a row is 1 when the error
    is strictly below the axis's tolerance and 0 otherwise (so 0 when the
    error equals the tolerance, and 0 for a missing error), and the
    [overall_acc] flag of a row is 1 or 0, and 1 exactly when the flags of
    all target axes on that row are 1. *)
Theorem acc_metric_strict (self : LabelEncoder R) (err_df : frame R) :
  frame_wf err_df →
  (∀ t, t ∈ target_label_names self → is_Some (f_cols err_df !! t)) →
  NoDup (target_label_names self) →
  "overall_acc" ∉ target_label_names self →
  length (target_label_names self) = length (tolerences self) →
  ∃ acc_df,
    acc_metric self err_df = Ok acc_df ∧
    (∀ i name tol col,
       target_label_names self !! i = Some name →
       tolerences self !! i = Some tol →
       f_cols err_df !! name = Some col →
       ∃ flags,
         f_cols acc_df !! name = Some flags ∧
         length flags = length col ∧
         (∀ j e, col !! j = Some (Some e) →
            (e < num_val tol → flags !! j = Some (Some 1)) ∧
            (num_val tol <= e → flags !! j = Some (Some 0))) ∧
         (∀ j, col !! j = Some None → flags !! j = Some (Some 0))) ∧
    ∃ overall,
      f_cols acc_df !! "overall_acc" = Some overall ∧
      length overall = f_rows err_df ∧
      ∀ j, (j < f_rows err_df)%nat →
        (overall !! j = Some (Some 1) ∨ overall !! j = Some (Some 0)) ∧
        (overall !! j = Some (Some 1) ↔
         ∀ name, name ∈ target_label_names self →
           ∃ flags, f_cols acc_df !! name = Some flags ∧
                    flags !! j = Some (Some 1)).
Proof.
  intros Hwf Hcols Hnd Hov Hlen.
  set (pairs := zip (target_label_names self) (tolerences self)).
  assert (∀ pr, pr ∈ pairs → is_Some (f_cols err_df !! pr.1)) as Hcols'.
  { intros [n t] Hin. apply Hcols. eapply elem_of_zip_l, Hin. }
  destruct (acc_metric_cols self err_df Hwf Hcols') as (acc_df & Hacc & Haxis & ov & Hovc & Hlov & Hovj).
  assert (∀ name tol col, (name, tol) ∈ pairs → f_cols err_df !! name = Some col →
            f_cols acc_df !! name = Some (flags_of col tol)) as Haxis'.
  { intros name tol col Hin Hcol. apply Haxis; auto.
    - intros tol' Hin'. eapply zip_pair_unique; eauto.
    - intros ->. apply Hov. eapply elem_of_zip_l, Hin. }
  exists acc_df. split; [exact Hacc|]. split.
  - intros i name tol col Hi Hti Hcol.
    assert ((name, tol) ∈ pairs) as Hin.
    { apply elem_of_lookup_zip_with. exists i, name, tol. done. }
    exists (flags_of col tol). split; [apply Haxis'; assumption|].
    split; [apply length_flags_of|]. split.
    + intros j e Hj. apply flags_of_cell, Hj.
    + intros j Hj. apply flags_of_missing, Hj.
  - exists (as_float32 <$> ov). split; [exact Hovc|].
    split; [rewrite length_fmap; exact Hlov|].
    intros j Hj.
    rewrite list_lookup_fmap, (Hovj j Hj). cbn [fmap option_fmap option_map].
    fold pairs.
    assert (forallb (row_ok err_df j) pairs = true ↔
            ∀ name, name ∈ target_label_names self →
              ∃ flags, f_cols acc_df !! name = Some flags ∧
                       flags !! j = Some (Some 1)) as Hall.
    { rewrite forallb_forall. split.
      * intros Hall name Hname.
        destruct (zip_pair_exists _ (tolerences self) name Hlen Hname) as [tol Hin].
        destruct (Hcols name Hname) as [col Hcol].
        exists (flags_of col tol). split; [apply Haxis'; assumption|].
        specialize (Hall (name, tol)). unfold row_ok in Hall. simpl in Hall.
        rewrite Hcol in Hall.
        assert (is_Some (col !! j)) as [c Hc].
        { apply lookup_lt_is_Some. rewrite (Hwf name col Hcol). exact Hj. }
        rewrite Hc in Hall. unfold flags_of, series_lt.
        rewrite !list_lookup_fmap, Hc. simpl. rewrite Hall; [reflexivity|].
        apply list_elem_of_In, Hin.
      * intros Hall [name tol] Hin. apply list_elem_of_In in Hin.
        destruct (Hall name) as (flags & Hflags & Hfj); [eapply elem_of_zip_l, Hin|].
        destruct (Hcols name) as [col Hcol]; [eapply elem_of_zip_l, Hin|].
        rewrite (Haxis' name tol col Hin Hcol) in Hflags. injection Hflags as <-.
        unfold row_ok. simpl. rewrite Hcol.
        unfold flags_of, series_lt in Hfj. rewrite !list_lookup_fmap in Hfj.
        destruct (col !! j) as [c|]; [|discriminate]. simpl in Hfj.
        injection Hfj as Hfj.
        destruct (cell_lt c tol); [reflexivity|]. simpl in Hfj. lra. }
    rewrite <- Hall. destruct (forallb (row_ok err_df j) pairs).
    + split; [left; reflexivity|]. split; reflexivity.
    + split; [right; reflexivity|]. split; [|discriminate].
      intros Heq. injection Heq as Heq. simpl in Heq. lra.
Qed.

Lemma err_sample_wf : frame_wf err_sample.
Proof.
  intros name col Hl. unfold err_sample in Hl. simpl in Hl.
  apply lookup_insert_Some in Hl as [[_ <-]|[_ Hl]]; [reflexivity|].
  apply lookup_insert_Some in Hl as [[_ <-]|[_ Hl]]; [reflexivity|].
  rewrite lookup_empty in Hl. discriminate.
Qed.

Lemma acc_metric_strict_witness :
  ∃ acc_df,
    acc_metric enc_edge err_sample = Ok acc_df ∧
    f_cols acc_df !! "x" = Some [Some 1; Some 0] ∧
    f_cols acc_df !! "yaw" = Some [Some 1; Some 0] ∧
    f_cols acc_df !! "overall_acc" = Some [Some 1; Some 0].
Proof.
  destruct (acc_metric_strict enc_edge err_sample err_sample_wf)
    as (acc_df & Hacc & Haxis & overall & Hov & Hlen & Hrow).
  - intros t Ht. simpl in Ht.
    apply elem_of_cons in Ht as [->|Ht]; [eexists; reflexivity|].
    apply list_elem_of_singleton in Ht as ->. eexists; reflexivity.
  - simpl. apply NoDup_cons. split; [|apply NoDup_singleton].
    intros Hin. apply list_elem_of_singleton in Hin. discriminate.
  - simpl. intros Hin.
    apply elem_of_cons in Hin as [Hin|Hin]; [discriminate|].
    apply list_elem_of_singleton in Hin. discriminate.
  - reflexivity.
  - destruct (Haxis 0%nat "x" (PyFloat 1) [Some 0.5; Some 1] eq_refl eq_refl eq_refl)
      as (fx & Hfx & Hlx & Hcx & _).
    destruct (Haxis 1%nat "yaw" (PyFloat 1) [Some 0.2; Some 3] eq_refl eq_refl eq_refl)
      as (fy & Hfy & Hly & Hcy & _).
    assert (fx = [Some 1; Some 0]) as ->.
    { apply list_two_eq; [exact Hlx| |].
      - apply (Hcx 0%nat 0.5 eq_refl). simpl. lra.
      - apply (Hcx 1%nat 1 eq_refl). simpl. lra. }
    assert (fy = [Some 1; Some 0]) as ->.
    { apply list_two_eq; [exact Hly| |].
      - apply (Hcy 0%nat 0.2 eq_refl). simpl. lra.
      - apply (Hcy 1%nat 3 eq_refl). simpl. lra. }
    exists acc_df. split; [exact Hacc|]. split; [exact Hfx|]. split; [exact Hfy|].
    rewrite Hov. f_equal. apply list_two_eq; [exact Hlen| |].
    + apply (Hrow 0%nat); [simpl; lia|]. intros name Hname. simpl in Hname.
      apply elem_of_cons in Hname as [->|Hname]; [eexists; split; [exact Hfx|reflexivity]|].
      apply list_elem_of_singleton in Hname as ->.
      eexists; split; [exact Hfy|reflexivity].
    + destruct (Hrow 1%nat) as [[H1|H0] Hiff]; [simpl; lia| |exact H0].
      destruct (proj1 Hiff H1 "x") as (fl & Hfl & Hj); [left|].
      rewrite Hfx in Hfl. injection Hfl as <-. simpl in Hj.
      injection Hj as Hj. lra.
Defined.

(** ** Equal limits *)

Lemma SFsub_diag (x : spec_float) :
  match SFsub B32.prec B32.emax x x with
  | S754_zero _ | S754_nan => True
  | _ => False
  end.
Proof.
  destruct x as [[]|[]| |s m e]; [exact I..|].
  unfold SFsub. rewrite Z.min_id. unfold shl_align. rewrite Z.sub_diag.
  exact I.
Qed.

Lemma SFdiv_zero_or_nan (x d : spec_float) :
  match d with S754_zero _ | S754_nan => True | _ => False end →
  B32.is_finite (SFdiv B32.prec B32.emax x d) = false.
Proof. destruct d as [sd|sd| |sd md ed], x as [sx|sx| |sx mx ex]; simpl; done. Qed.

Lemma SFmul_nonfinite (q : spec_float) (s : bool) (m : positive) (e : Z) :
  B32.is_finite q = false →
  B32.is_finite (SFmul B32.prec B32.emax q (S754_finite s m e)) = false.
Proof. destruct q; simpl; done. Qed.

Lemma SFsub_nonfinite (q : spec_float) (s : bool) (m : positive) (e : Z) :
  B32.is_finite q = false →
  B32.is_finite (SFsub B32.prec B32.emax q (S754_finite s m e)) = false.
Proof. destruct q; simpl; done. Qed.

(** C7 (as amended): for a label whose two limits are equal, [encode_norm]
    raises nothing; in binary32 it returns one cell per target value, each of
    them NaN or an infinity. *)
Theorem encode_norm_equal_limits
    (self : LabelEncoder B32.t) (label_name : string) (target : list B32.t)
    (i : nat) (lim : B32.t) :
  index (label_names self) label_name = Ok i →
  llims self !! i = Some lim →
  ulims self !! i = Some lim →
  ∃ col, encode_norm self target label_name = Ok col ∧
         length col = length target ∧
         Forall (λ c, B32.is_finite c = false) col.
Proof.
  intros Hi Hl Hu. unfold encode_norm, getitem.
  rewrite Hi; simpl. rewrite Hl, Hu; simpl.
  eexists; split; [reflexivity|]. split; [apply length_fmap|].
  apply Forall_fmap, Forall_true. intros t. simpl.
  change (B32.of_Z 2) with (S754_finite false 8388608 (-22)).
  change (B32.of_Z 1) with (S754_finite false 8388608 (-23)).
  apply SFsub_nonfinite, SFmul_nonfinite, SFdiv_zero_or_nan, SFsub_diag.
Qed.

Lemma encode_norm_equal_limits_witness :
  ∃ col, encode_norm enc_flat [B32.of_Z 1; B32.of_Z 3] "x" = Ok col ∧
         length col = 2%nat ∧
         Forall (λ c, B32.is_finite c = false) col.
Proof.
  apply (encode_norm_equal_limits enc_flat "x" [B32.of_Z 1; B32.of_Z 3] 0 (B32.of_Z 1));
    reflexivity.
Defined.

(** C7, counterexample: with both limits 1, the targets 1 and 3 are encoded
    without any error, to NaN and to plus infinity. *)
Lemma encode_norm_equal_limits_returns :
  encode_norm enc_flat [B32.of_Z 1; B32.of_Z 3] "x" =
    Ok [S754_nan; S754_infinity false] ∧
  is_ok (encode_norm enc_flat [B32.of_Z 1; B32.of_Z 3] "x") = true.
Proof. split; vm_compute; reflexivity. Qed.

(** ** Width of the decoded tensor *)

Section DecodeWidth.
Context {T : Type} `{Scalar T, Trig T}.

Lemma getitem_Ok {A} (l : list A) (i : nat) (a : A) :
  getitem l i = Ok a → (i < length l)%nat.
Proof.
  unfold getitem. destruct (l !! i) eqn:Hl; [|discriminate].
  intros _. eapply lookup_lt_Some, Hl.
Qed.

Lemma consumed_cons (self : LabelEncoder T) (n : string) (w : pynum T)
    (rest : list (string * pynum T)) :
  consumed self ((n, w) :: rest) =
  ((if mem n (periodic_label_names self) then 2 else 1) + consumed self rest)%nat.
Proof. reflexivity. Qed.

(** Fewer columns than the loop reads: an exception. *)
Lemma decode_loop_short (self : LabelEncoder T) (outputs : tensor2 T)
    (pairs : list (string * pynum T)) (ind : nat) (d : gmap string (list T)) :
  (ind <= width outputs)%nat →
  (width outputs < ind + consumed self pairs)%nat →
  is_ok (decode_loop self outputs pairs ind d) = false.
Proof.
  revert ind d. induction pairs as [|[n w] rest IH]; intros ind d Hind Hw.
  { unfold consumed in Hw. simpl in Hw. lia. }
  rewrite consumed_cons in Hw. cbn [decode_loop].
  destruct (mem n (periodic_label_names self)); cbn [negb].
  - destruct (getitem (t_cols outputs) ind) as [c0|e0] eqn:Hg0; [|reflexivity].
    apply getitem_Ok in Hg0. cbn [bind].
    destruct (getitem (t_cols outputs) (ind + 1)) as [c1|e1] eqn:Hg1; [|reflexivity].
    apply getitem_Ok in Hg1. cbn [bind].
    destruct (decode_circnorm _) as [v|e]; [|reflexivity]. cbn [bind].
    apply IH; unfold width in *; lia.
  - destruct (getitem (t_cols outputs) ind) as [c0|e0] eqn:Hg0; [|reflexivity].
    apply getitem_Ok in Hg0. cbn [bind].
    destruct (decode_norm _ _ _) as [v|e]; [|reflexivity]. cbn [bind].
    apply IH; unfold width in *; lia.
Qed.

(** The loop reads the columns below [ind + consumed] only. *)
Lemma decode_loop_agree (self : LabelEncoder T) (o1 o2 : tensor2 T)
    (pairs : list (string * pynum T)) (ind : nat) (d : gmap string (list T)) :
  (∀ k, (k < ind + consumed self pairs)%nat → t_cols o1 !! k = t_cols o2 !! k) →
  decode_loop self o1 pairs ind d = decode_loop self o2 pairs ind d.
Proof.
  revert ind d. induction pairs as [|[n w] rest IH]; intros ind d Hk; [reflexivity|].
  rewrite consumed_cons in Hk. cbn [decode_loop]. unfold getitem.
  destruct (mem n (periodic_label_names self)); cbn [negb].
  - rewrite <- (Hk ind), <- (Hk (ind + 1)%nat) by lia.
    destruct (t_cols o1 !! ind); [|reflexivity]. cbn [bind].
    destruct (t_cols o1 !! (ind + 1)%nat); [|reflexivity]. cbn [bind].
    destruct (decode_circnorm _); [|reflexivity]. cbn [bind].
    apply IH. intros k Hlt. apply Hk. lia.
  - rewrite <- (Hk ind) by lia.
    destruct (t_cols o1 !! ind); [|reflexivity]. cbn [bind].
    destruct (decode_norm _ _ _); [|reflexivity]. cbn [bind].
    apply IH. intros k Hlt. apply Hk. lia.
Qed.

Lemma count_cons (t : string) (ts : list string) (p : string) :
  count (t :: ts) p = ((if decide (t = p) then 1 else 0) + count ts p)%nat.
Proof.
  unfold count. rewrite filter_cons. destruct (decide (t = p)); reflexivity.
Qed.

Lemma sum_hits (t : string) (periodic : list string) :
  NoDup periodic →
  sum_list ((λ p, if decide (t = p) then 1 else 0)%nat <$> periodic) =
  (if mem t periodic then 1 else 0)%nat.
Proof.
  unfold mem. induction 1 as [|p ps Hnin Hnd IH]; [reflexivity|].
  cbn [fmap list_fmap sum_list]. rewrite IH.
  destruct (decide (t = p)) as [->|Hne].
  - rewrite (bool_decide_true (p ∈ p :: ps)) by left.
    rewrite (bool_decide_false (p ∈ ps)) by exact Hnin. reflexivity.
  - destruct (bool_decide (t ∈ ps)) eqn:Hb.
    + apply bool_decide_eq_true in Hb.
      rewrite (bool_decide_true (t ∈ p :: ps)) by (right; exact Hb).
      reflexivity.
    + apply bool_decide_eq_false in Hb.
      rewrite (bool_decide_false (t ∈ p :: ps)); [reflexivity|].
      intros Hin. apply elem_of_cons in Hin as [?|?]; done.
Qed.

Lemma sum_counts (targets periodic : list string) :
  NoDup periodic →
  sum_list (count targets <$> periodic) =
  sum_list ((λ t, if mem t periodic then 1 else 0)%nat <$> targets).
Proof.
  intros Hnd. induction targets as [|t ts IH].
  - simpl. induction periodic as [|p ps IHp]; [reflexivity|].
    simpl. apply IHp. apply NoDup_cons in Hnd as [_ ?]. assumption.
  - cbn [fmap list_fmap sum_list]. rewrite <- IH, <- (sum_hits t periodic Hnd).
    clear. induction periodic as [|p ps IHp]; [reflexivity|].
    cbn [fmap list_fmap sum_list]. rewrite count_cons.
    change (list_fmap string nat ?f ps) with (f <$> ps).
    rewrite IHp. unfold Datatypes.id. lia.
Qed.

Lemma consumed_targets (self : LabelEncoder T) (targets : list string)
    (weights : list (pynum T)) :
  (length targets <= length weights)%nat →
  consumed self (zip targets weights) =
  (length targets +
   sum_list ((λ t, if mem t (periodic_label_names self) then 1 else 0) <$> targets))%nat.
Proof.
  revert weights. induction targets as [|t ts IH]; intros [|w ws] Hlen;
    simpl in Hlen; try lia; [reflexivity..|].
  change (zip (t :: ts) (w :: ws)) with ((t, w) :: zip ts ws).
  rewrite consumed_cons, IH by lia. cbn [fmap list_fmap sum_list length fst].
  unfold Datatypes.id. destruct (mem t (periodic_label_names self)); lia.
Qed.

Lemma consumed_out_dim (self : LabelEncoder T) :
  NoDup (periodic_label_names self) →
  (length (target_label_names self) <= length (target_weights self))%nat →
  consumed self (zip (target_label_names self) (target_weights self)) = out_dim self.
Proof.
  intros Hnd Hlen. unfold out_dim. rewrite consumed_targets by exact Hlen.
  rewrite sum_counts by exact Hnd. reflexivity.
Qed.

End DecodeWidth.

(** ** Width of the encoded label *)

Section EncodeWidth.
Context {T : Type} `{Scalar T, Trig T}.

Lemma length_concat_replicate {A} (n : nat) (l : list A) :
  length (concat (replicate n l)) = (n * length l)%nat.
Proof. induction n as [|n IH]; simpl; [reflexivity|]. rewrite length_app, IH. lia. Qed.

Lemma encode_loop_length (self : LabelEncoder T) (labels_dict : gmap string (list T))
    (pairs : list (string * pynum T)) (acc cols : list (list T)) :
  encode_loop self labels_dict pairs acc = Ok cols →
  length cols = (length acc + sum_list (emitted self <$> pairs))%nat.
Proof.
  revert acc. induction pairs as [|[n w] rest IH]; intros acc Hloop; simpl in Hloop.
  { injection Hloop as <-. simpl. lia. }
  inv_bind. rewrite (IH _ Hloop). cbn [fmap list_fmap sum_list].
  assert (length a1 = (length acc + emitted self (n, w))%nat) as ->;
    [|unfold Datatypes.id; lia].
  unfold emitted. cbn [fst snd].
  destruct (mem n (periodic_label_names self)); cbn [negb] in *; inv_bind.
  - subst. unfold list_rmul in Ha2. destruct w as [z|x]; [|discriminate].
    injection Ha2 as <-. rewrite length_app, length_concat_replicate. simpl. lia.
  - subst. rewrite length_app. simpl. lia.
Qed.

(** X5: when the periodic names are distinct, every target has a weight and
    every periodic target carries the integer weight 1, a label that
    [encode_label] returns has [out_dim] columns. *)
Lemma encode_label_unit_weights (self : LabelEncoder T)
    (labels_dict : gmap string (list T)) (x : tensor2 T) :
  (∀ n w, (n, w) ∈ zip (target_label_names self) (target_weights self) →
          mem n (periodic_label_names self) = true → w = PyInt 1) →
  NoDup (periodic_label_names self) →
  (length (target_label_names self) <= length (target_weights self))%nat →
  encode_label self labels_dict = Ok x →
  width x = out_dim self.
Proof.
  intros Hone Hnd Hlen Henc. unfold encode_label in Henc. inv_bind.
  apply encode_loop_length in Ha. simpl in Ha.
  rewrite <- (consumed_out_dim self Hnd Hlen).
  assert (width x = length a) as ->.
  { unfold cat1 in Henc. destruct a as [|c cs]; [discriminate|].
    destruct (forallb _ cs); [|discriminate]. injection Henc as <-. reflexivity. }
  rewrite Ha. unfold consumed.
  generalize dependent (zip (target_label_names self) (target_weights self)).
  intros pairs Hone _. induction pairs as [|[n w] rest IH]; [reflexivity|].
  cbn [fmap list_fmap sum_list]. rewrite IH.
  - f_equal. unfold emitted. cbn [fst snd].
    destruct (mem n (periodic_label_names self)) eqn:Hm; [|reflexivity].
    rewrite (Hone n w); [reflexivity|left|exact Hm].
  - intros n' w' Hin. apply Hone. right. exact Hin.
Qed.

End EncodeWidth.

(** C6, at the failing input: with the integer weight 2 on the periodic
    target [yaw], [encode_label] returns four columns, the pair (sin, cos)
    twice and unscaled, while [out_dim] is 2; with the default weights
    [np.ones(1)] it raises [TypeError]. *)
Theorem encode_label_periodic_weight_repeats :
  encode_label enc_yaw_w2 labels_30 =
    Ok (Tensor2 1 [[sin (30 * PI / 180)]; [cos (30 * PI / 180)];
                   [sin (30 * PI / 180)]; [cos (30 * PI / 180)]]) ∧
  out_dim enc_yaw_w2 = 2%nat ∧
  encode_label enc_yaw_ones labels_30 = Raise TypeError.
Proof. repeat split; reflexivity. Qed.

(** C8 (as amended): for a LabelSpec with distinct periodic names and a
    weight for every target, an output tensor with fewer columns than
    [out_dim] makes [decode_label] raise an exception, which reaches the
    caller; with [out_dim] columns or more, [decode_label] reads the first
    [out_dim] columns only: the other columns are ignored, and no exception
    is raised on their account. *)
Theorem decode_label_width {T : Type} `{Scalar T, Trig T}
    (self : LabelEncoder T) (outputs : tensor2 T) :
  NoDup (periodic_label_names self) →
  (length (target_label_names self) <= length (target_weights self))%nat →
  ((width outputs < out_dim self)%nat →
     ∃ e, decode_label self outputs = Raise e) ∧
  ((out_dim self <= width outputs)%nat →
     decode_label self outputs = decode_label self (narrow (out_dim self) outputs)).
Proof.
  intros Hnd Hlen. pose proof (consumed_out_dim self Hnd Hlen) as Hc. split.
  - intros Hw. unfold decode_label.
    pose proof (decode_loop_short self outputs
                  (zip (target_label_names self) (target_weights self)) 0
                  (zeros_dict (label_names self) (t_rows outputs))) as Hs.
    rewrite Hc in Hs. specialize (Hs ltac:(lia) ltac:(lia)).
    destruct (decode_loop _ _ _ _ _) as [d|e]; [discriminate|]. eauto.
  - intros Hw. unfold decode_label. cbn [narrow t_rows].
    apply decode_loop_agree. rewrite Hc. intros k Hk. cbn [narrow t_cols].
    rewrite lookup_take_lt by lia. reflexivity.
Qed.

Lemma decode_label_width_witness :
  (∃ e, decode_label enc_edge outputs2 = Raise e) ∧
  decode_label enc_edge outputs4 = decode_label enc_edge (narrow 3 outputs4).
Proof.
  split.
  - apply (decode_label_width enc_edge outputs2);
      [apply NoDup_singleton | simpl; lia | change (2 < 3)%nat; lia].
  - apply (decode_label_width enc_edge outputs4);
      [apply NoDup_singleton | simpl; lia | change (3 <= 4)%nat; lia].
Defined.

(** C8, counterexample: a tensor of four columns for a LabelSpec whose
    [out_dim] is 3 is decoded without any error, to the same poses as its
    first three columns. *)
Lemma decode_label_ignores_extra_columns :
  width outputs4 = 4%nat ∧ out_dim enc_edge = 3%nat ∧
  is_ok (decode_label enc_edge outputs4) = true ∧
  decode_label enc_edge outputs4 = decode_label enc_edge outputs3.
Proof. repeat split; reflexivity. Qed.

(** ** Control parameters *)

(** Only the four task names are accepted. *)
Lemma setup_control_params_accepts (task : string) (cp : control_params) :
  setup_control_params task = Ok cp →
  task ∈ ["surface_3d"; "edge_2d"; "edge_3d"; "edge_5d"].
Proof.
  unfold setup_control_params. rewrite !elem_of_cons.
  repeat (destruct (decide _) as [->|_]; [tauto|]). discriminate.
Qed.

(** C9: each of the four tasks yields control parameters whose episode
    length is positive, whose gains and clip bounds have six entries, and
    whose lower clip bound is at most the upper one on every axis. *)
Theorem setup_control_params_invariant (task : string) :
  task ∈ ["surface_3d"; "edge_2d"; "edge_3d"; "edge_5d"] →
  ∃ cp, setup_control_params task = Ok cp ∧
        (0 < ep_len cp)%Z ∧
        length (kp (pid_params cp)) = 6%nat ∧ length (ki (pid_params cp)) = 6%nat ∧
        length (ei_clip (pid_params cp)).1 = 6%nat ∧ length (ei_clip (pid_params cp)).2 = 6%nat ∧
        Forall2 Rle (ei_clip (pid_params cp)).1 (ei_clip (pid_params cp)).2.
Proof.
  rewrite !elem_of_cons, elem_of_nil.
  intros [->|[->|[->|[->|[]]]]];
    (eexists; split; [reflexivity|]);
    (split; [reflexivity|]);
    repeat (split; [reflexivity|]);
    cbn [ei_clip pid_params fst snd];
    repeat (apply List.Forall2_cons; [lra|]); apply List.Forall2_nil.
Qed.

Lemma setup_control_params_invariant_witness :
  ∃ cp, setup_control_params "edge_5d" = Ok cp ∧
        (0 < ep_len cp)%Z ∧
        length (kp (pid_params cp)) = 6%nat ∧ length (ki (pid_params cp)) = 6%nat ∧
        length (ei_clip (pid_params cp)).1 = 6%nat ∧ length (ei_clip (pid_params cp)).2 = 6%nat ∧
        Forall2 Rle (ei_clip (pid_params cp)).1 (ei_clip (pid_params cp)).2.
Proof.
  apply (setup_control_params_invariant "edge_5d").
  rewrite !elem_of_cons. tauto.
Defined.

(** ** The key of the tolerances *)

Lemma acc_loop_Ok_cols {T : Type} `{Scalar T} (err_df : frame T)
    (pairs : list (string * pynum T)) (ov : list bool) (acc : frame T)
    (r : list bool * frame T) :
  acc_loop err_df pairs ov acc = Ok r →
  ∀ pr, pr ∈ pairs → is_Some (f_cols err_df !! pr.1).
Proof.
  revert ov acc. induction pairs as [|[n t] rest IH]; intros ov acc Hloop pr Hin.
  { inversion Hin. }
  simpl in Hloop. inv_bind. unfold frame_get, dict_get in Ha.
  destruct (f_cols err_df !! n) as [col|] eqn:Hcol; [|discriminate].
  apply elem_of_cons in Hin as [->|Hin]; [simpl; rewrite Hcol; eauto|].
  eapply IH; eauto.
Qed.

(** C10: when a task document has no key [tolerences], the encoder built
    from it is the same whatever the document holds under [tolerances]; its
    thresholds are [np.ones(num_targets)], and on a well-formed error frame
    with a column for every target [acc_metric] returns a frame in which the
    flag of every target axis on a row is 1 when the error is below 1 and 0
    when it is 1 or more.  With a list under [tolerences] the encoder takes
    the list as thresholds, and the flag of the i-th target is 1 when the
    error is below the i-th entry of the list and 0 otherwise. *)
Theorem tolerances_key_ignored (task_params : gmap string (jval R)) (v : jval R) :
  task_params !! "tolerences" = None →
  LabelEncoder_init (<["tolerances" := v]> task_params) = LabelEncoder_init task_params ∧
  (∀ self err_df,
     LabelEncoder_init (<["tolerances" := v]> task_params) = Ok self →
     frame_wf err_df →
     (∀ t, t ∈ target_label_names self → is_Some (f_cols err_df !! t)) →
     "overall_acc" ∉ target_label_names self →
     tolerences self = np_ones (length (target_label_names self)) ∧
     ∃ acc_df,
       acc_metric self err_df = Ok acc_df ∧
       ∀ name col,
         name ∈ target_label_names self → f_cols err_df !! name = Some col →
         ∃ flags,
           f_cols acc_df !! name = Some flags ∧ length flags = length col ∧
           ∀ j e, col !! j = Some (Some e) →
             (e < 1 → flags !! j = Some (Some 1)) ∧
             (1 <= e → flags !! j = Some (Some 0))) ∧
  (∀ ts self err_df,
     LabelEncoder_init (<["tolerences" := JNums ts]> (<["tolerances" := v]> task_params))
       = Ok self →
     frame_wf err_df →
     (∀ t, t ∈ target_label_names self → is_Some (f_cols err_df !! t)) →
     NoDup (target_label_names self) →
     "overall_acc" ∉ target_label_names self →
     tolerences self = ts ∧
     ∃ acc_df,
       acc_metric self err_df = Ok acc_df ∧
       ∀ i name tol col,
         target_label_names self !! i = Some name → ts !! i = Some tol →
         f_cols err_df !! name = Some col →
         ∃ flags,
           f_cols acc_df !! name = Some flags ∧ length flags = length col ∧
           ∀ j e, col !! j = Some (Some e) →
             (e < num_val tol → flags !! j = Some (Some 1)) ∧
             (num_val tol <= e → flags !! j = Some (Some 0))).
Proof.
  intros Hnone.
  assert (LabelEncoder_init (<["tolerances" := v]> task_params)
          = LabelEncoder_init task_params) as Heq.
  { unfold LabelEncoder_init, dict_get, dict_get_default.
    rewrite !lookup_insert_ne by done. reflexivity. }
  split; [exact Heq|]. split.
  - intros self err_df Hinit Hwf Hcols Hov. rewrite Heq in Hinit.
    assert (tolerences self = np_ones (length (target_label_names self))) as Htol.
    { unfold LabelEncoder_init, dict_get_default in Hinit. rewrite Hnone in Hinit.
      simpl in Hinit. inv_bind. subst self. reflexivity. }
    split; [exact Htol|].
    destruct (acc_metric_cols self err_df Hwf) as (acc_df & Hacc & Haxis & _).
    { intros [n t] Hin. apply Hcols. eapply elem_of_zip_l, Hin. }
    exists acc_df. split; [exact Hacc|].
    intros name col Hname Hcol.
    assert (∀ tol, (name, tol) ∈ zip (target_label_names self) (tolerences self) →
                   tol = PyFloat 1) as Hone.
    { intros tol Hin. apply elem_of_zip_r in Hin. rewrite Htol in Hin.
      unfold np_ones in Hin. apply elem_of_replicate in Hin as [-> _]. reflexivity. }
    destruct (zip_pair_exists (target_label_names self) (tolerences self) name)
      as [tol Hin]; [rewrite Htol; unfold np_ones; rewrite length_replicate; done|done|].
    rewrite (Hone tol Hin) in Hin.
    exists (flags_of col (PyFloat 1)). split.
    { apply Haxis; auto. congruence. }
    split; [apply length_flags_of|].
    intros j e Hj. apply (flags_of_cell col (PyFloat 1) j e Hj).
  - intros ts self err_df Hinit Hwf Hcols Hnd Hov.
    assert (tolerences self = ts) as Htol.
    { unfold LabelEncoder_init, dict_get_default in Hinit.
      rewrite lookup_insert_eq in Hinit. simpl in Hinit. inv_bind. subst self.
      reflexivity. }
    split; [exact Htol|].
    destruct (acc_metric_cols self err_df Hwf) as (acc_df & Hacc & Haxis & _).
    { intros [n t] Hin. apply Hcols. eapply elem_of_zip_l, Hin. }
    exists acc_df. split; [exact Hacc|].
    intros i name tol col Hi Hti Hcol. rewrite <- Htol in Hti.
    assert ((name, tol) ∈ zip (target_label_names self) (tolerences self)) as Hin.
    { apply elem_of_lookup_zip_with. exists i, name, tol. done. }
    exists (flags_of col tol). split.
    { apply Haxis; auto.
      - intros tol' Hin'. eapply zip_pair_unique; eauto.
      - intros ->. apply Hov. eapply elem_of_zip_l, Hin. }
    split; [apply length_flags_of|].
    intros j e Hj. apply flags_of_cell, Hj.
Qed.

Lemma tolerances_key_ignored_witness :
  (∃ acc_df,
     LabelEncoder_init (<["tolerances" := doc_tolerances]> task_doc_edge) = Ok enc_doc_edge ∧
     acc_metric enc_doc_edge err_sample = Ok acc_df ∧
     f_cols acc_df !! "yaw" = Some [Some 1; Some 0]) ∧
  (∃ self acc_df,
     LabelEncoder_init (<["tolerences" := doc_tolerances]>
                          (<["tolerances" := doc_tolerances]> task_doc_edge)) = Ok self ∧
     acc_metric self err_sample = Ok acc_df ∧
     f_cols acc_df !! "yaw" = Some [Some 1; Some 1]).
Proof.
  destruct (tolerances_key_ignored task_doc_edge doc_tolerances eq_refl)
    as (_ & Hdef & Hkey).
  assert (∀ t : string, t ∈ ["x"; "yaw"] → is_Some (f_cols err_sample !! t)) as Hcols.
  { intros t Ht.
    apply elem_of_cons in Ht as [->|Ht]; [eexists; reflexivity|].
    apply list_elem_of_singleton in Ht as ->. eexists; reflexivity. }
  assert ("overall_acc" ∉ ["x"; "yaw"]) as Hov.
  { intros Hin.
    apply elem_of_cons in Hin as [Hin|Hin]; [discriminate|].
    apply list_elem_of_singleton in Hin. discriminate. }
  split.
  - destruct (Hdef enc_doc_edge err_sample eq_refl err_sample_wf Hcols Hov)
      as (_ & acc_df & Hacc & Hflags).
    exists acc_df. split; [reflexivity|]. split; [exact Hacc|].
    destruct (Hflags "yaw" [Some 0.2; Some 3]) as (fl & Hfl & Hlen & Hcell);
      [right; left|reflexivity|].
    rewrite Hfl. f_equal. apply list_two_eq; [exact Hlen| |].
    + apply (Hcell 0%nat 0.2 eq_refl). lra.
    + apply (Hcell 1%nat 3 eq_refl). lra.
  - destruct (Hkey [PyInt 4; PyInt 8] _ err_sample eq_refl err_sample_wf Hcols)
      as (_ & acc_df & Hacc & Hflags); [|exact Hov|].
    { apply NoDup_cons. split; [|apply NoDup_singleton].
      intros Hin. apply list_elem_of_singleton in Hin. discriminate. }
    eexists. exists acc_df. split; [reflexivity|]. split; [exact Hacc|].
    destruct (Hflags 1%nat "yaw" (PyInt 8) [Some 0.2; Some 3] eq_refl eq_refl eq_refl)
      as (fl & Hfl & Hlen & Hcell).
    rewrite Hfl. f_equal. apply list_two_eq; [exact Hlen| |].
    + apply (Hcell 0%nat 0.2 eq_refl). simpl. lra.
    + apply (Hcell 1%nat 3 eq_refl). simpl. lra.
Defined.

(** * Further properties *)

(** ** Normalised encoding: the other round trip, the range *)

(** X1: over exact arithmetic, for a label with [llim < ulim], [decode_norm]
    returns a tensor that [encode_norm] takes back to the prediction it was
    decoded from. *)
Theorem decode_encode_norm_roundtrip
    (self : LabelEncoder R) (label_name : string) (prediction : list R)
    (i : nat) (llim ulim : R) :
  index (label_names self) label_name = Ok i →
  llims self !! i = Some llim →
  ulims self !! i = Some ulim →
  llim < ulim →
  ∃ v, decode_norm self prediction label_name = Ok v ∧
       encode_norm self v label_name = Ok prediction.
Proof.
  intros Hi Hl Hu Hlt. unfold encode_norm, decode_norm, getitem.
  rewrite Hi; simpl. rewrite Hl, Hu; simpl.
  eexists; split; [reflexivity|]. f_equal.
  rewrite <- list_fmap_compose.
  rewrite <- (list_fmap_id prediction) at 2.
  apply list_fmap_ext. intros _ p _. simpl. field. lra.
Qed.

Lemma decode_encode_norm_roundtrip_witness :
  ∃ v, decode_norm enc_edge [0.5; -1] "x" = Ok v ∧
       encode_norm enc_edge v "x" = Ok [0.5; -1].
Proof.
  apply (decode_encode_norm_roundtrip enc_edge "x" [0.5; -1] 0 (-5) 5);
    [reflexivity | reflexivity | reflexivity | lra].
Defined.

Lemma encode_norm_cell_range (llim ulim v : R) :
  llim < ulim →
  let e := (v - llim) / (ulim - llim) * 2 - 1 in
  (llim <= v <= ulim ↔ -1 <= e <= 1) ∧ (v < llim ↔ e < -1) ∧ (ulim < v ↔ 1 < e).
Proof.
  intros Hlt. simpl.
  assert (0 < / (ulim - llim)) as Hk by (apply Rinv_0_lt_compat; lra).
  assert ((ulim - llim) * / (ulim - llim) = 1) as Hinv by (field; lra).
  unfold Rdiv. set (k := / (ulim - llim)) in *.
  repeat split; intros; nra.
Qed.

(** X2: over exact arithmetic, for a label with [llim < ulim], [encode_norm]
    takes the values of [llim, ulim], and only them, into [-1, 1]: a value
    below [llim] is encoded below -1, a value above [ulim] above 1. *)
Theorem encode_norm_range
    (self : LabelEncoder R) (label_name : string) (target : list R)
    (i : nat) (llim ulim : R) :
  index (label_names self) label_name = Ok i →
  llims self !! i = Some llim →
  ulims self !! i = Some ulim →
  llim < ulim →
  ∃ col, encode_norm self target label_name = Ok col ∧
         Forall2 (λ v e, (llim <= v <= ulim ↔ -1 <= e <= 1) ∧
                         (v < llim ↔ e < -1) ∧ (ulim < v ↔ 1 < e))
                 target col.
Proof.
  intros Hi Hl Hu Hlt. unfold encode_norm, getitem.
  rewrite Hi; simpl. rewrite Hl, Hu; simpl.
  eexists; split; [reflexivity|].
  induction target as [|v target IH]; simpl; constructor; [|exact IH].
  apply encode_norm_cell_range, Hlt.
Qed.

Lemma encode_norm_range_witness :
  ∃ col, encode_norm enc_edge [5; 7] "x" = Ok col ∧
         Forall2 (λ v e, (-5 <= v <= 5 ↔ -1 <= e <= 1) ∧
                         (v < -5 ↔ e < -1) ∧ (5 < v ↔ 1 < e))
                 [5; 7] col.
Proof.
  apply (encode_norm_range enc_edge "x" [5; 7] 0 (-5) 5);
    [reflexivity | reflexivity | reflexivity | lra].
Defined.

(** ** Circular decoding does not depend on a positive scale *)

Lemma atan2_scale (k y x : R) : 0 < k → atan2 (y / k) (x / k) = atan2 y x.
Proof.
  intros Hk.
  assert (0 < / k) as Hik by (apply Rinv_0_lt_compat; exact Hk).
  unfold atan2.
  destruct (Rlt_dec 0 x) as [Hx|Hx].
  - destruct (Rlt_dec 0 (x / k)) as [_|Hn]; [|exfalso; apply Hn; unfold Rdiv; nra].
    f_equal. field. lra.
  - destruct (Rlt_dec 0 (x / k)) as [Hp|_]; [exfalso; unfold Rdiv in Hp; nra|].
    destruct (Rlt_dec x 0) as [Hx'|Hx'].
    + destruct (Rlt_dec (x / k) 0) as [_|Hn]; [|exfalso; apply Hn; unfold Rdiv; nra].
      replace (y / k / (x / k)) with (y / x) by (field; lra).
      destruct (Rle_dec 0 y) as [Hy|Hy].
      * destruct (Rle_dec 0 (y / k)) as [_|Hn]; [reflexivity|].
        exfalso; apply Hn; unfold Rdiv; nra.
      * destruct (Rle_dec 0 (y / k)) as [Hp|_]; [|reflexivity].
        exfalso; unfold Rdiv in Hp; nra.
    + destruct (Rlt_dec (x / k) 0) as [Hp|_]; [exfalso; unfold Rdiv in Hp; nra|].
      destruct (Rlt_dec 0 y) as [Hy|Hy].
      * destruct (Rlt_dec 0 (y / k)) as [_|Hn]; [reflexivity|].
        exfalso; apply Hn; unfold Rdiv; nra.
      * destruct (Rlt_dec 0 (y / k)) as [Hp|_]; [exfalso; unfold Rdiv in Hp; nra|].
        destruct (Rlt_dec y 0) as [Hy'|Hy'].
        -- destruct (Rlt_dec (y / k) 0) as [_|Hn]; [reflexivity|].
           exfalso; apply Hn; unfold Rdiv; nra.
        -- destruct (Rlt_dec (y / k) 0) as [Hp|_]; [|reflexivity].
           exfalso; unfold Rdiv in Hp; nra.
Qed.

Lemma atan2_scale_l (k a : R) (l : list R) :
  0 < k → atan2 (a / k) <$> ((λ c, c / k) <$> l) = atan2 a <$> l.
Proof.
  intros Hk. rewrite <- list_fmap_compose. apply list_fmap_ext.
  intros _ c _. simpl. apply atan2_scale, Hk.
Qed.

Lemma atan2_scale_r (k b : R) (l : list R) :
  0 < k →
  (λ c, atan2 c (b / k)) <$> ((λ c, c / k) <$> l) = (λ c, atan2 c b) <$> l.
Proof.
  intros Hk. rewrite <- list_fmap_compose. apply list_fmap_ext.
  intros _ c _. simpl. apply atan2_scale, Hk.
Qed.

Lemma tensor_zip_atan2_scale (k : R) (y x : list R) :
  0 < k →
  tensor_zip atan2 ((λ c, c / k) <$> y) ((λ c, c / k) <$> x) = tensor_zip atan2 y x.
Proof.
  intros Hk. unfold tensor_zip. rewrite !length_fmap.
  destruct (decide (length y = length x)) as [_|Hne].
  - f_equal. clear -Hk. revert x.
    induction y as [|a y IH]; intros [|b x]; simpl; try reflexivity.
    rewrite atan2_scale by exact Hk. f_equal. apply IH.
  - destruct y as [|a [|a' y]].
    + destruct x as [|b [|b' x]]; reflexivity.
    + cbn [fmap list_fmap]. f_equal. apply atan2_scale_l, Hk.
    + destruct x as [|b [|b' x]]; try reflexivity.
      cbn [fmap list_fmap]. f_equal.
      rewrite !atan2_scale by exact Hk. do 2 f_equal.
      apply (atan2_scale_r k b y Hk).
Qed.

(** X3: over exact arithmetic, [decode_circnorm] returns the same angles, or
    raises the same exception, when its two tensors are divided by a weight
    above zero: the decoded angle depends on the direction of (sin, cos)
    only, not on its length. *)
Theorem decode_circnorm_scale (weight : pynum R) (y x : list R) :
  0 < num_val weight →
  decode_circnorm [tensor_div y weight; tensor_div x weight] = decode_circnorm [y; x].
Proof.
  intros Hw. unfold decode_circnorm, tensor_div.
  cbn [t_atan2 R_trig s_div R_scalar].
  rewrite (tensor_zip_atan2_scale (num_val weight) y x Hw). reflexivity.
Qed.

Lemma decode_circnorm_scale_witness :
  decode_circnorm [tensor_div [3; 0] (PyInt 5); tensor_div [4; -2] (PyInt 5)]
  = decode_circnorm (T:=R) [[3; 0]; [4; -2]].
Proof. apply (decode_circnorm_scale (PyInt 5) [3; 0] [4; -2]). simpl. lra. Defined.

(** ** Shape and requirements of the encoded label *)

Section EncodeLabel.
Context {T : Type} `{Scalar T, Trig T}.

Lemma cat1_Ok (cols : list (list T)) (x : tensor2 T) :
  cat1 cols = Ok x →
  t_cols x = cols ∧ (0 < length cols)%nat ∧ Forall (λ c, length c = t_rows x) cols.
Proof.
  unfold cat1. destruct cols as [|c cs]; [discriminate|].
  destruct (forallb _ cs) eqn:Hall; [|discriminate].
  intros [= <-]. simpl. split; [reflexivity|]. split; [lia|].
  constructor; [reflexivity|].
  rewrite forallb_forall in Hall. apply Forall_forall. intros c' Hc.
  apply Nat.eqb_eq, Hall, list_elem_of_In, Hc.
Qed.

Lemma index_Ok_lookup (l : list string) (x : string) (i : nat) :
  index l x = Ok i → l !! i = Some x.
Proof.
  revert i. induction l as [|y l IH]; intros i; simpl; [discriminate|].
  destruct (decide (y = x)) as [->|_]; [intros [= <-]; reflexivity|].
  intros Hb. inv_bind. subst i. simpl. apply IH. assumption.
Qed.

Lemma encode_norm_Ok (self : LabelEncoder T) (target col : list T) (n : string) :
  encode_norm self target n = Ok col →
  ∃ i l u, index (label_names self) n = Ok i ∧
           llims self !! i = Some l ∧ ulims self !! i = Some u.
Proof.
  unfold encode_norm, getitem.
  destruct (index (label_names self) n) as [i|]; simpl; [|discriminate].
  destruct (llims self !! i) as [l|] eqn:Hl; simpl; [|discriminate].
  destruct (ulims self !! i) as [u|] eqn:Hu; simpl; [|discriminate].
  intros _. exists i, l, u. done.
Qed.

Lemma encode_loop_requires (self : LabelEncoder T) (labels_dict : gmap string (list T))
    (pairs : list (string * pynum T)) (acc cols : list (list T)) :
  encode_loop self labels_dict pairs acc = Ok cols →
  ∀ n w, (n, w) ∈ pairs →
    is_Some (labels_dict !! n) ∧
    if mem n (periodic_label_names self)
    then ∃ z, w = PyInt z
    else ∃ i l u, label_names self !! i = Some n ∧
                  llims self !! i = Some l ∧ ulims self !! i = Some u.
Proof.
  revert acc. induction pairs as [|[n0 w0] rest IH]; intros acc Hloop n w Hin.
  { inversion Hin. }
  simpl in Hloop. inv_bind.
  apply elem_of_cons in Hin as [Heq|Hin]; [|eapply IH; eauto].
  injection Heq as -> ->.
  split.
  { unfold dict_get in Ha. destruct (labels_dict !! n0); [eauto|discriminate]. }
  destruct (mem n0 (periodic_label_names self)); cbn [negb] in *; inv_bind.
  - unfold list_rmul in Ha2. destruct w0 as [z|x]; [eauto|discriminate].
  - match goal with
    | Hn : encode_norm _ _ _ = Ok _ |- _ =>
        apply encode_norm_Ok in Hn as (i & l & u & Hi & Hl & Hu)
    end.
    exists i, l, u. split; [apply index_Ok_lookup; assumption|]. done.
Qed.

End EncodeLabel.

(** X4: a label that [encode_label] returns has at least one column, its
    columns all have as many cells as the tensor has rows, and their number
    is the sum over the (target, weight) pairs of 1 for a target that is not
    periodic and of twice the integer weight for a periodic one. *)
Theorem encode_label_shape {T : Type} `{Scalar T, Trig T}
    (self : LabelEncoder T) (labels_dict : gmap string (list T)) (x : tensor2 T) :
  encode_label self labels_dict = Ok x →
  width x = sum_list (emitted self <$> zip (target_label_names self) (target_weights self)) ∧
  (0 < width x)%nat ∧
  Forall (λ c, length c = t_rows x) (t_cols x).
Proof.
  intros Henc. unfold encode_label in Henc. inv_bind.
  apply encode_loop_length in Ha. simpl in Ha.
  apply cat1_Ok in Henc as (Hcols & Hpos & Hall).
  unfold width. rewrite Hcols. done.
Qed.

Lemma encode_label_shape_witness :
  ∃ x, encode_label enc_yaw_w2 labels_30 = Ok x ∧ width x = 4%nat ∧
       Forall (λ c, length c = t_rows x) (t_cols x).
Proof.
  eexists. split; [reflexivity|].
  refine (let H := encode_label_shape enc_yaw_w2 labels_30 _ eq_refl in _).
  destruct H as (Hw & _ & Hall). split; [exact Hw|exact Hall].
Defined.

(** X6: [encode_label] returns a label only if every (target, weight) pair
    has its target among the keys of [labels_dict], an integer weight when
    the target is periodic, and otherwise a target that is a label name with
    a lower and an upper limit. *)
Theorem encode_label_requires {T : Type} `{Scalar T, Trig T}
    (self : LabelEncoder T) (labels_dict : gmap string (list T)) (x : tensor2 T) :
  encode_label self labels_dict = Ok x →
  ∀ n w, (n, w) ∈ zip (target_label_names self) (target_weights self) →
    is_Some (labels_dict !! n) ∧
    if mem n (periodic_label_names self)
    then ∃ z, w = PyInt z
    else ∃ i l u, label_names self !! i = Some n ∧
                  llims self !! i = Some l ∧ ulims self !! i = Some u.
Proof.
  intros Henc. unfold encode_label in Henc. inv_bind.
  eapply encode_loop_requires; eauto.
Qed.

Lemma encode_label_requires_witness :
  is_Some (labels_edge !! "yaw") ∧
  if mem "yaw" (periodic_label_names enc_edge)
  then ∃ z, PyInt (T:=R) 1 = PyInt z
  else ∃ i l u, label_names enc_edge !! i = Some "yaw" ∧
                llims enc_edge !! i = Some l ∧ ulims enc_edge !! i = Some u.
Proof.
  refine (encode_label_requires enc_edge labels_edge _ eq_refl "yaw" (PyInt 1) _).
  right. left.
Defined.

Lemma encode_label_unit_weights_witness :
  ∃ x, encode_label enc_edge labels_edge = Ok x ∧ width x = out_dim enc_edge.
Proof.
  eexists. split; [reflexivity|].
  apply (encode_label_unit_weights enc_edge labels_edge _).
  - intros n w Hin _. simpl in Hin.
    apply elem_of_cons in Hin as [[= _ ->]|Hin]; [reflexivity|].
    apply list_elem_of_singleton in Hin as [= _ ->]. reflexivity.
  - apply NoDup_singleton.
  - simpl. lia.
  - reflexivity.
Defined.

(** ** Targets without a weight *)

Section Truncation.
Context {T : Type} `{Scalar T, Trig T}.

Lemma encode_loop_with_targets (self : LabelEncoder T) (targets : list string)
    (labels_dict : gmap string (list T)) (pairs : list (string * pynum T))
    (acc : list (list T)) :
  encode_loop (with_targets self targets) labels_dict pairs acc
  = encode_loop self labels_dict pairs acc.
Proof.
  revert acc. induction pairs as [|[n w] rest IH]; intros acc; [reflexivity|].
  cbn [encode_loop]. destruct (dict_get labels_dict n); [|reflexivity].
  cbn [bind with_targets periodic_label_names].
  change (encode_norm (with_targets self targets)) with (encode_norm self).
  destruct (negb _); cbn [bind].
  - destruct (encode_norm self a n); [|reflexivity]. cbn [bind].
    destruct (mem n (periodic_label_names self)); cbn [bind]; [|apply IH].
    destruct (list_rmul _ _); [|reflexivity]. cbn [bind]. apply IH.
  - destruct (mem n (periodic_label_names self)); cbn [bind]; [|apply IH].
    destruct (list_rmul _ _); [|reflexivity]. cbn [bind]. apply IH.
Qed.

Lemma decode_loop_with_targets (self : LabelEncoder T) (targets : list string)
    (outputs : tensor2 T) (pairs : list (string * pynum T)) (ind : nat)
    (d : gmap string (list T)) :
  decode_loop (with_targets self targets) outputs pairs ind d
  = decode_loop self outputs pairs ind d.
Proof.
  revert ind d. induction pairs as [|[n w] rest IH]; intros ind d; [reflexivity|].
  cbn [decode_loop with_targets periodic_label_names].
  change (decode_norm (with_targets self targets)) with (decode_norm self).
  destruct (negb _).
  - destruct (getitem _ _); [|reflexivity]. cbn [bind].
    destruct (decode_norm _ _ _); [|reflexivity]. cbn [bind]. apply IH.
  - destruct (getitem _ ind); [|reflexivity]. cbn [bind].
    destruct (getitem _ _); [|reflexivity]. cbn [bind].
    destruct (decode_circnorm _); [|reflexivity]. cbn [bind]. apply IH.
Qed.

End Truncation.

Lemma sum_list_le {A} (f g : A → nat) (l : list A) :
  (∀ a, (f a <= g a)%nat) → (sum_list (f <$> l) <= sum_list (g <$> l))%nat.
Proof.
  intros Hfg. induction l as [|a l IH]; [reflexivity|].
  change (sum_list (f <$> a :: l)) with (f a + sum_list (f <$> l))%nat.
  change (sum_list (g <$> a :: l)) with (g a + sum_list (g <$> l))%nat.
  specialize (Hfg a). lia.
Qed.

(** X7: the targets that come after the last weight take no part in
    [encode_label] and [decode_label]: both give what they give for the
    encoder whose targets are cut to the number of weights, though [out_dim]
    counts every target. *)
Theorem targets_without_weight_dropped {T : Type} `{Scalar T, Trig T}
    (self : LabelEncoder T) (labels_dict : gmap string (list T)) (outputs : tensor2 T) :
  let cut := with_targets self
               (take (length (target_weights self)) (target_label_names self)) in
  encode_label self labels_dict = encode_label cut labels_dict ∧
  decode_label self outputs = decode_label cut outputs ∧
  (out_dim cut <= out_dim self)%nat.
Proof.
  simpl. unfold encode_label, decode_label.
  cbn [with_targets target_label_names target_weights label_names].
  rewrite zip_with_take_l, encode_loop_with_targets, decode_loop_with_targets.
  split; [reflexivity|]. split; [reflexivity|].
  unfold out_dim. cbn [with_targets target_label_names periodic_label_names].
  rewrite length_take.
  assert (∀ p, (count (take (length (target_weights self)) (target_label_names self)) p
                <= count (target_label_names self) p)%nat) as Hc.
  { intros p. unfold count.
    rewrite <- (take_drop (length (target_weights self)) (target_label_names self)) at 2.
    rewrite filter_app, length_app. lia. }
  pose proof (sum_list_le _ _ (periodic_label_names self) Hc). lia.
Qed.

(** ** What decode_label leaves at zero *)

Section DecodeLabel.
Context {T : Type} `{Scalar T, Trig T}.

Lemma zeros_fold_lookup (names : list string) (B : nat) (d : gmap string (list T))
    (n : string) :
  foldl (λ d label, <[label := replicate B (s_of_Z 0)]> d) d names !! n =
  if mem n names then Some (replicate B (s_of_Z 0)) else d !! n.
Proof.
  unfold mem. revert d. induction names as [|m names IH]; intros d; cbn [foldl].
  { rewrite bool_decide_false; [reflexivity|]. apply not_elem_of_nil. }
  rewrite IH. destruct (bool_decide (n ∈ names)) eqn:Hb.
  - apply bool_decide_eq_true in Hb.
    rewrite (bool_decide_true (n ∈ m :: names)) by (right; exact Hb). reflexivity.
  - apply bool_decide_eq_false in Hb. destruct (decide (n = m)) as [->|Hne].
    + rewrite (bool_decide_true (m ∈ m :: names)) by left.
      apply lookup_insert_eq.
    + rewrite (bool_decide_false (n ∈ m :: names)).
      * apply lookup_insert_ne. congruence.
      * intros Hin. apply elem_of_cons in Hin as [?|?]; done.
Qed.

Lemma decode_loop_lookup (self : LabelEncoder T) (outputs : tensor2 T)
    (pairs : list (string * pynum T)) (ind : nat) (d0 d : gmap string (list T)) :
  decode_loop self outputs pairs ind d0 = Ok d →
  (∀ n, n ∉ pairs.*1 → d !! n = d0 !! n) ∧
  (∀ n, is_Some (d0 !! n) → is_Some (d !! n)) ∧
  (∀ n, n ∈ pairs.*1 → is_Some (d !! n)).
Proof.
  revert ind d0. induction pairs as [|[m w] rest IH]; intros ind d0 Hloop.
  { injection Hloop as <-. repeat split; auto. intros n Hin. inversion Hin. }
  cbn [decode_loop] in Hloop.
  assert (∃ ind' v, decode_loop self outputs rest ind' (<[m := v]> d0) = Ok d)
    as (ind' & v & Hrest).
  { destruct (negb _); inv_bind; eauto. }
  destruct (IH _ _ Hrest) as (Hout & Hkeep & Hin).
  assert (is_Some (d !! m)) as Hm.
  { apply Hkeep. rewrite lookup_insert_eq. eauto. }
  repeat split.
  - intros n Hn. cbn [fmap list_fmap fst] in Hn.
    apply not_elem_of_cons in Hn as [Hne Hn].
    rewrite (Hout n Hn). apply lookup_insert_ne. congruence.
  - intros n Hs. apply Hkeep. destruct (decide (n = m)) as [->|Hne].
    + rewrite lookup_insert_eq. eauto.
    + rewrite lookup_insert_ne by congruence. exact Hs.
  - intros n Hn. cbn [fmap list_fmap fst] in Hn.
    apply elem_of_cons in Hn as [->|Hn]; [exact Hm|apply Hin, Hn].
Qed.

End DecodeLabel.

(** X8: in a dict that [decode_label] returns, a label name that is not a
    target holds zeros, one per row of the outputs; a name that is neither a
    label name nor a target is not a key; every target that has a weight is
    a key. *)
Theorem decode_label_untargeted {T : Type} `{Scalar T, Trig T}
    (self : LabelEncoder T) (outputs : tensor2 T) (d : gmap string (list T)) :
  decode_label self outputs = Ok d →
  (∀ n, n ∉ target_label_names self →
     d !! n = if mem n (label_names self)
              then Some (replicate (t_rows outputs) (s_of_Z 0)) else None) ∧
  (∀ n w, (n, w) ∈ zip (target_label_names self) (target_weights self) →
     is_Some (d !! n)).
Proof.
  intros Hdec. unfold decode_label in Hdec.
  destruct (decode_loop_lookup _ _ _ _ _ _ Hdec) as (Hout & _ & Hin). split.
  - intros n Hn. rewrite Hout.
    + unfold zeros_dict. rewrite zeros_fold_lookup, lookup_empty. reflexivity.
    + intros Hz. apply Hn. apply list_elem_of_fmap in Hz as ([n' w] & -> & Hz).
      eapply elem_of_zip_l, Hz.
  - intros n w Hnw. apply Hin. apply list_elem_of_fmap. exists (n, w). done.
Qed.

Lemma decode_label_untargeted_witness :
  ∃ d, decode_label enc_edge outputs3 = Ok d ∧
       d !! "pitch" = Some [0] ∧ d !! "speed" = None ∧ is_Some (d !! "yaw").
Proof.
  destruct (decode_label enc_edge outputs3) as [d|e] eqn:Hd; [|discriminate Hd].
  exists d. split; [reflexivity|].
  destruct (decode_label_untargeted enc_edge outputs3 d Hd) as [Hz Hk].
  split; [|split].
  - rewrite (Hz "pitch"); [reflexivity|].
    intros Hin. apply elem_of_cons in Hin as [Hin|Hin]; [discriminate|].
    apply list_elem_of_singleton in Hin. discriminate.
  - rewrite (Hz "speed"); [reflexivity|].
    intros Hin. apply elem_of_cons in Hin as [Hin|Hin]; [discriminate|].
    apply list_elem_of_singleton in Hin. discriminate.
  - apply (Hk "yaw" (PyInt 1)). right. left.
Defined.

(** ** Round trip through encode_label and decode_label *)

Lemma tensor_div_one (x : list R) : tensor_div x (PyInt 1) = x.
Proof.
  unfold tensor_div. rewrite <- (list_fmap_id x) at 2.
  apply list_fmap_ext. intros _ c _. simpl. field.
Qed.

Lemma norm_roundtrip_tensor (self : LabelEncoder R) (n : string) (w : pynum R)
    (v : list R) (i : nat) (l u : R) :
  index (label_names self) n = Ok i →
  llims self !! i = Some l → ulims self !! i = Some u → l < u → num_val w ≠ 0 →
  ∃ col, encode_norm self v n = Ok col ∧ length col = length v ∧
         decode_norm self (tensor_div (tensor_rmul w col) w) n = Ok v.
Proof.
  intros Hi Hl Hu Hlt Hw. unfold encode_norm, decode_norm, getitem.
  rewrite Hi; simpl. rewrite Hl, Hu; simpl.
  eexists; split; [reflexivity|]. split; [apply length_fmap|]. f_equal.
  unfold tensor_div, tensor_rmul. rewrite <- !list_fmap_compose.
  rewrite <- (list_fmap_id v) at 2.
  apply list_fmap_ext. intros _ c _. simpl.
  apply norm_roundtrip_cell; assumption.
Qed.

Lemma circnorm_roundtrip_tensor (v : list R) :
  ∃ v', decode_circnorm (encode_circnorm v) = Ok v' ∧ same_pose true v v'.
Proof.
  unfold encode_circnorm, decode_circnorm.
  rewrite tensor_zip_same by (rewrite !length_fmap; reflexivity).
  simpl. eexists; split; [reflexivity|]. apply circnorm_roundtrip_cells.
Qed.

Lemma lookup_two {A} (pre post : list A) (a b : A) :
  (pre ++ [a; b] ++ post) !! length pre = Some a ∧
  (pre ++ [a; b] ++ post) !! (length pre + 1)%nat = Some b.
Proof.
  split; [apply list_lookup_middle; reflexivity|].
  rewrite lookup_app_r by lia.
  replace (length pre + 1 - length pre)%nat with 1%nat by lia. reflexivity.
Qed.

(** One pass of the two loops on a pair that is ready: the columns the
    encoder appends, and the tensor the decoder stores for them. *)
Lemma roundtrip_step (self : LabelEncoder R) (labels_dict : gmap string (list R))
    (B : nat) (n : string) (w : pynum R) (rest : list (string * pynum R)) (v : list R) :
  codec_ready self labels_dict B [(n, w)] →
  labels_dict !! n = Some v →
  ∃ blk v',
    (∀ acc, encode_loop self labels_dict ((n, w) :: rest) acc
            = encode_loop self labels_dict rest (acc ++ blk)) ∧
    blk ≠ [] ∧ Forall (λ c, length c = B) blk ∧
    same_pose (mem n (periodic_label_names self)) v v' ∧
    ∀ rows pre post d0,
      decode_loop self (Tensor2 rows (pre ++ blk ++ post)) ((n, w) :: rest) (length pre) d0
      = decode_loop self (Tensor2 rows (pre ++ blk ++ post)) rest
          (length pre + length blk) (<[n := v']> d0).
Proof.
  intros Hready Hv.
  destruct (Hready n w) as [(v0 & Hv0 & HB) Hkind]; [left|].
  assert (v0 = v) as -> by congruence.
  destruct (mem n (periodic_label_names self)) eqn:Hm.
  - subst w. destruct (circnorm_roundtrip_tensor v) as (v' & Hv' & Hs).
    exists (encode_circnorm v), v'. split; [|split; [|split; [|split]]].
    + intros acc. cbn [encode_loop]. unfold dict_get. rewrite Hv, Hm.
      cbn [bind negb list_rmul]. change (Z.to_nat 1) with 1%nat.
      cbn [replicate concat]. rewrite app_nil_r. reflexivity.
    + discriminate.
    + unfold encode_circnorm. repeat constructor; rewrite !length_fmap; exact HB.
    + exact Hs.
    + intros rows pre post d0. cbn [decode_loop t_cols]. rewrite Hm. cbn [negb].
      unfold getitem.
      destruct (lookup_two pre post (sin <$> ((λ t, t * PI / 180) <$> v))
                  (cos <$> ((λ t, t * PI / 180) <$> v))) as [H0 H1].
      change (encode_circnorm v)
        with [sin <$> ((λ t, t * PI / 180) <$> v); cos <$> ((λ t, t * PI / 180) <$> v)] at 1 2.
      rewrite H0, H1. cbn [bind]. rewrite !tensor_div_one.
      change [sin <$> ((λ t, t * PI / 180) <$> v); cos <$> ((λ t, t * PI / 180) <$> v)]
        with (encode_circnorm v).
      rewrite Hv'. cbn [bind]. reflexivity.
  - destruct Hkind as (Hw & i & l & u & Hi & Hl & Hu & Hlt).
    destruct (norm_roundtrip_tensor self n w v i l u Hi Hl Hu Hlt Hw)
      as (col & Hcol & Hlc & Hback).
    exists [tensor_rmul w col], v. split; [|split; [|split; [|split]]].
    + intros acc. cbn [encode_loop]. unfold dict_get. rewrite Hv, Hm.
      cbn [bind negb]. rewrite Hcol. reflexivity.
    + discriminate.
    + repeat constructor. unfold tensor_rmul. rewrite length_fmap. congruence.
    + reflexivity.
    + intros rows pre post d0. cbn [decode_loop t_cols]. rewrite Hm. cbn [negb].
      unfold getitem.
      change ([tensor_rmul w col] ++ post) with (tensor_rmul w col :: post).
      rewrite list_lookup_middle by reflexivity. cbn [bind].
      rewrite Hback. cbn [bind]. reflexivity.
Qed.

Lemma roundtrip_loop (self : LabelEncoder R) (labels_dict : gmap string (list R))
    (B : nat) (pairs : list (string * pynum R)) :
  codec_ready self labels_dict B pairs →
  ∀ acc, ∃ cols,
    encode_loop self labels_dict pairs acc = Ok (acc ++ cols) ∧
    Forall (λ c, length c = B) cols ∧
    (pairs ≠ [] → cols ≠ []) ∧
    ∀ rows post d0, ∃ d,
      decode_loop self (Tensor2 rows (acc ++ cols ++ post)) pairs (length acc) d0 = Ok d ∧
      (∀ n, n ∉ pairs.*1 → d !! n = d0 !! n) ∧
      (∀ n w v, (n, w) ∈ pairs → labels_dict !! n = Some v →
         ∃ v', d !! n = Some v' ∧
               same_pose (mem n (periodic_label_names self)) v v').
Proof.
  induction pairs as [|[n w] rest IH]; intros Hready acc.
  { exists []. rewrite app_nil_r. split; [reflexivity|]. split; [constructor|].
    split; [done|]. intros rows post d0. exists d0. split; [reflexivity|].
    split; [done|]. intros n w v Hin. inversion Hin. }
  assert (codec_ready self labels_dict B rest) as Hready'.
  { intros n' w' Hin. apply Hready. right. exact Hin. }
  destruct (Hready n w) as [(v & Hv & HB) _]; [left|].
  destruct (roundtrip_step self labels_dict B n w rest v)
    as (blk & v' & Henc & Hne & Hlen & Hsame & Hdec); [|exact Hv|].
  { intros n' w' Hin. apply list_elem_of_singleton in Hin.
    injection Hin as -> ->. apply Hready. left. }
  destruct (IH Hready' (acc ++ blk)) as (cols & Hloop & Hall & _ & Hrest).
  exists (blk ++ cols). split; [|split; [|split]].
  - rewrite Henc, Hloop, app_assoc. reflexivity.
  - apply Forall_app. split; assumption.
  - intros _ Hnil. apply app_eq_nil in Hnil as [Hb _]. exact (Hne Hb).
  - intros rows post d0.
    destruct (Hrest rows post (<[n := v']> d0)) as (d & Hd & Hout & Hval).
    exists d. split; [|split].
    + rewrite <- app_assoc, Hdec, <- length_app.
      rewrite (app_assoc acc blk (cols ++ post)). exact Hd.
    + intros n' Hn'. cbn [fmap list_fmap fst] in Hn'.
      apply not_elem_of_cons in Hn' as [Hne' Hn'].
      rewrite (Hout n' Hn'). apply lookup_insert_ne. congruence.
    + intros n' w' v0 Hin Hv0.
      destruct (decide (n' ∈ rest.*1)) as [Hr|Hr].
      * apply list_elem_of_fmap in Hr as ([n'' w''] & Heq & Hr). simpl in Heq. subst n''.
        apply (Hval n' w'' v0 Hr Hv0).
      * apply elem_of_cons in Hin as [Heq|Hin].
        -- injection Heq as -> ->. assert (v0 = v) as -> by congruence.
           exists v'. split; [|exact Hsame].
           rewrite (Hout n Hr). apply lookup_insert_eq.
        -- exfalso. apply Hr. apply list_elem_of_fmap. exists (n', w'). done.
Qed.

Lemma cat1_uniform {T : Type} `{Scalar T} (cols : list (list T)) (B : nat) :
  cols ≠ [] → Forall (λ c, length c = B) cols → cat1 cols = Ok (Tensor2 B cols).
Proof.
  intros Hne Hall. destruct cols as [|c cs]; [done|]. unfold cat1.
  apply Forall_cons in Hall as [Hc Hcs]. rewrite Hc.
  assert (forallb (λ c', length c' =? B)%nat cs = true) as ->; [|reflexivity].
  apply forallb_forall. intros c' Hin. apply Nat.eqb_eq.
  rewrite Forall_forall in Hcs. apply Hcs, list_elem_of_In, Hin.
Qed.

(** X9: over exact arithmetic, when there is at least one (target, weight)
    pair and every pair is ready (a label tensor of [B] cells, the integer
    weight 1 on a periodic target, a weight that is not zero and limits
    [llim < ulim] on any other), [encode_label] returns a tensor of [B] rows
    that [decode_label] decodes, and the decoded dict holds for every target
    the label tensor itself, or on a periodic axis angles congruent to the
    labels modulo 360 and inside (-180, 180]. *)
Theorem decode_encode_label_roundtrip
    (self : LabelEncoder R) (labels_dict : gmap string (list R)) (B : nat) :
  codec_ready self labels_dict B (zip (target_label_names self) (target_weights self)) →
  zip (target_label_names self) (target_weights self) ≠ [] →
  ∃ x d,
    encode_label self labels_dict = Ok x ∧ t_rows x = B ∧
    decode_label self x = Ok d ∧
    ∀ n w v,
      (n, w) ∈ zip (target_label_names self) (target_weights self) →
      labels_dict !! n = Some v →
      ∃ v', d !! n = Some v' ∧ same_pose (mem n (periodic_label_names self)) v v'.
Proof.
  intros Hready Hne.
  destruct (roundtrip_loop self labels_dict B _ Hready [])
    as (cols & Henc & Hall & Hcols & Hdec).
  specialize (Hcols Hne).
  destruct (Hdec B [] (zeros_dict (label_names self) B)) as (d & Hd & _ & Hval).
  exists (Tensor2 B cols), d. unfold encode_label, decode_label.
  rewrite Henc. cbn [bind app]. rewrite (cat1_uniform cols B Hcols Hall).
  split; [reflexivity|]. split; [reflexivity|]. split; [|exact Hval].
  cbn [app length] in Hd. rewrite app_nil_r in Hd. exact Hd.
Qed.

Lemma decode_encode_label_roundtrip_witness :
  ∃ x d,
    encode_label enc_edge labels_edge = Ok x ∧ t_rows x = 1%nat ∧
    decode_label enc_edge x = Ok d ∧
    ∀ n w v,
      (n, w) ∈ zip (target_label_names enc_edge) (target_weights enc_edge) →
      labels_edge !! n = Some v →
      ∃ v', d !! n = Some v' ∧ same_pose (mem n (periodic_label_names enc_edge)) v v'.
Proof.
  apply (decode_encode_label_roundtrip enc_edge labels_edge 1); [|discriminate].
  intros n w Hin. cbn in Hin.
  apply elem_of_cons in Hin as [Heq|Hin].
  - injection Heq as -> ->. split; [exists [2.5]; split; reflexivity|].
    change (mem "x" (periodic_label_names enc_edge)) with false. cbv iota.
    split; [simpl; lra|].
    exists 0%nat, (-5), 5. repeat split; try reflexivity. lra.
  - apply list_elem_of_singleton in Hin. injection Hin as -> ->.
    split; [exists [30]; split; reflexivity|].
    change (mem "yaw" (periodic_label_names enc_edge)) with true. reflexivity.
Defined.

(** ** The error metric does not tell labels from predictions *)

Lemma atan2_opp_abs (y x : R) : Rabs (atan2 (- y) x) = Rabs (atan2 y x).
Proof.
  unfold atan2.
  assert (- y / x = - (y / x)) as -> by (unfold Rdiv; ring).
  rewrite atan_opp.
  destruct (Rlt_dec 0 x); [apply Rabs_Ropp|].
  destruct (Rlt_dec x 0).
  - destruct (Rle_dec 0 (- y)), (Rle_dec 0 y).
    + assert (y = 0) as -> by lra.
      replace (0 / x) with 0 by (unfold Rdiv; ring). rewrite atan_0. f_equal. ring.
    + rewrite <- (Rabs_Ropp (atan (y / x) - PI)). f_equal. ring.
    + rewrite <- (Rabs_Ropp (atan (y / x) + PI)). f_equal. ring.
    + lra.
  - destruct (Rlt_dec 0 (- y)), (Rlt_dec 0 y), (Rlt_dec (- y) 0), (Rlt_dec y 0);
      try lra; try reflexivity; rewrite Rabs_Ropp; reflexivity.
Qed.

Lemma circ_err_opp (d : R) : circ_err (- d) = circ_err d.
Proof.
  unfold circ_err. cbn [s_abs s_mul s_div s_of_Z R_scalar t_atan2 t_sin t_cos t_pi R_trig].
  rewrite sin_neg, cos_neg, atan2_opp_abs. reflexivity.
Qed.

Lemma tensor_zip_swap (f : R → R → R) (g : R → R) (a b : list R) :
  (∀ x y, g (f x y) = g (f y x)) →
  bind (tensor_zip f a b) (λ d, Ok (g <$> d)) =
  bind (tensor_zip f b a) (λ d, Ok (g <$> d)).
Proof.
  intros Hg. unfold tensor_zip.
  destruct (decide (length a = length b)) as [Hl|Hl].
  - rewrite decide_True by done. cbn [bind]. f_equal.
    revert b Hl. induction a as [|x a IH]; intros [|y b] Hl; simpl in *; try done.
    f_equal; [apply Hg|]. apply IH. lia.
  - rewrite decide_False by done.
    destruct a as [|x [|x' a]], b as [|y [|y' b]]; cbn [length] in Hl; try done;
      cbn [bind]; try reflexivity;
      f_equal; rewrite <- !list_fmap_compose; apply list_fmap_ext; intros; simpl; apply Hg.
Qed.

Lemma abs_err_of_symmetric (self : LabelEncoder R)
    (labels predictions : gmap string (list R)) (name : string) :
  abs_err_of self labels predictions name = abs_err_of self predictions labels name.
Proof.
  unfold abs_err_of, dict_get.
  destruct (negb _), (labels !! name) as [l|], (predictions !! name) as [p|];
    cbn [bind]; try reflexivity.
  - apply (tensor_zip_swap Rminus Rabs). intros x y.
    rewrite <- Rabs_Ropp. f_equal. ring.
  - apply (tensor_zip_swap Rminus circ_err). intros x y.
    rewrite <- circ_err_opp. f_equal. ring.
Qed.

(** X10: over exact arithmetic [err_metric] is symmetric: exchanging the
    labels and the predictions gives the same frame of errors, or the same
    exception. *)
Theorem err_metric_symmetric (self : LabelEncoder R)
    (labels predictions : gmap string (list R)) :
  err_metric self labels predictions = err_metric self predictions labels.
Proof.
  unfold err_metric. generalize (frame_new (T:=R) (label_names self)).
  induction (target_label_names self) as [|t rest IH]; intros df; [reflexivity|].
  cbn [err_loop]. rewrite abs_err_of_symmetric.
  destruct (abs_err_of self predictions labels t) as [e|]; [|reflexivity].
  cbn [bind]. destruct (frame_set df t (Some <$> e)) as [df'|]; [|reflexivity].
  apply IH.
Qed.

(** ** Predictions that hit the labels *)

Section FrameWf.
Context {T : Type} `{Scalar T, Trig T}.

Lemma frame_new_wf (names : list string) : frame_wf (frame_new (T:=T) names).
Proof.
  unfold frame_wf, frame_new. cbn [f_cols f_rows].
  assert (∀ m : gmap string (list (option T)),
            (∀ n c, m !! n = Some c → c = []) →
            ∀ n c, foldl (λ m c, <[c := []]> m) m names !! n = Some c → c = []) as Hf.
  { induction names as [|x names IH]; intros m Hm n c; cbn [foldl]; [apply Hm|].
    apply IH. intros n' c'. destruct (decide (n' = x)) as [->|Hne].
    - rewrite lookup_insert_eq. congruence.
    - rewrite lookup_insert_ne by congruence. apply Hm. }
  intros name col Hl. rewrite (Hf ∅) with (n := name) (c := col); [reflexivity| |exact Hl].
  intros n' c'. rewrite lookup_empty. discriminate.
Qed.

Lemma frame_set_wf (df df' : frame T) (name : string) (col : list (option T)) :
  frame_set df name col = Ok df' → frame_wf df → frame_wf df'.
Proof.
  unfold frame_set, frame_wf. intros Hset Hwf.
  destruct (decide (f_rows df = 0%nat)) as [Hz|Hz].
  - injection Hset as <-. cbn [f_cols f_rows]. intros n c.
    destruct (decide (n = name)) as [->|Hne].
    + rewrite lookup_insert_eq. congruence.
    + rewrite lookup_insert_ne by congruence. rewrite lookup_fmap.
      destruct (f_cols df !! n); simpl; [|discriminate].
      intros [= <-]. apply length_replicate.
  - destruct (decide (length col = f_rows df)) as [Hl|Hl]; [|discriminate].
    injection Hset as <-. cbn [f_cols f_rows]. intros n c.
    destruct (decide (n = name)) as [->|Hne].
    + rewrite lookup_insert_eq. intros [= <-]. exact Hl.
    + rewrite lookup_insert_ne by congruence. apply Hwf.
Qed.

Lemma err_loop_wf (self : LabelEncoder T) (labels predictions : gmap string (list T))
    (targets : list string) (df df' : frame T) :
  err_loop self labels predictions targets df = Ok df' → frame_wf df → frame_wf df'.
Proof.
  revert df. induction targets as [|t rest IH]; intros df Hloop Hwf; simpl in Hloop.
  { injection Hloop as <-. exact Hwf. }
  inv_bind. eapply IH; [eassumption|]. eapply frame_set_wf; eassumption.
Qed.

End FrameWf.

Lemma circ_err_congruent (l : R) (k : Z) :
  circ_err (l * PI / 180 - (l + 360 * IZR k) * PI / 180) = 0.
Proof.
  pose proof (circ_err_cell l (l + 360 * IZR k)) as Hc. cbv zeta in Hc.
  destruct Hc as [[Hlo _] (k0 & _ & Hmin)]. specialize (Hmin k).
  replace (l - (l + 360 * IZR k) + 360 * IZR k) with 0 in Hmin by lra.
  rewrite Rabs_R0 in Hmin. lra.
Qed.

Lemma congruent_pose_length (b : bool) (v v' : list R) :
  congruent_pose b v v' → length v' = length v.
Proof.
  destruct b; simpl; [|congruence]. intros Hc. symmetry. eapply Forall2_length, Hc.
Qed.

Lemma abs_err_of_congruent (self : LabelEncoder R)
    (labels predictions : gmap string (list R)) (name : string) (ls ps : list R) :
  labels !! name = Some ls → predictions !! name = Some ps →
  congruent_pose (mem name (periodic_label_names self)) ls ps →
  abs_err_of self labels predictions name = Ok (replicate (length ls) 0).
Proof.
  intros Hl Hp Hc. unfold abs_err_of, dict_get. rewrite Hl, Hp. cbn [bind].
  pose proof (congruent_pose_length _ _ _ Hc) as Hlen.
  unfold congruent_pose in Hc. destruct (mem name _); cbn [negb].
  - rewrite tensor_zip_same by (rewrite !length_fmap; congruence). cbn [bind]. f_equal.
    clear Hl Hp Hlen. induction Hc as [|l p ls ps [k ->] _ IH]; [reflexivity|].
    cbn [fmap list_fmap zip_with replicate length]. f_equal; [|exact IH].
    cbn [s_sub s_mul s_div s_of_Z R_scalar t_pi R_trig]. apply circ_err_congruent.
  - subst ps. rewrite tensor_zip_same by reflexivity. cbn [bind]. f_equal.
    clear. induction ls as [|l ls IH]; [reflexivity|].
    cbn [fmap list_fmap zip_with replicate length]. f_equal; [|exact IH].
    cbn [s_sub s_abs R_scalar]. unfold Rminus. rewrite Rplus_opp_r. apply Rabs_R0.
Qed.

(** X11: over exact arithmetic, for an encoder with at least one target,
    when on every target the predictions are the labels (on a periodic axis,
    the labels up to whole turns of 360 degrees) and every tolerance paired
    with a target is positive, [calc_batch_metrics] returns an error frame of
    [B] rows whose target columns are all 0, and an accuracy frame whose
    [overall_acc] column is 1 on every row. *)
Theorem calc_batch_metrics_congruent (self : LabelEncoder R)
    (labels predictions : gmap string (list R)) (B : nat) :
  target_label_names self ≠ [] →
  (∀ t, t ∈ target_label_names self →
     ∃ ls ps, labels !! t = Some ls ∧ predictions !! t = Some ps ∧ length ls = B ∧
              congruent_pose (mem t (periodic_label_names self)) ls ps) →
  (∀ t tol, (t, tol) ∈ zip (target_label_names self) (tolerences self) →
            0 < num_val tol) →
  ∃ err_df acc_df,
    calc_batch_metrics self labels predictions = Ok (err_df, acc_df) ∧
    f_rows err_df = B ∧
    (∀ t, t ∈ target_label_names self →
          f_cols err_df !! t = Some (replicate B (Some 0))) ∧
    f_cols acc_df !! "overall_acc" = Some (replicate B (Some 1)).
Proof.
  intros Hne Hc Htol.
  assert (batch_of labels predictions B (target_label_names self)) as Hb.
  { intros t Ht. destruct (Hc t Ht) as (ls & ps & Hl & Hp & Hlen & Hcg).
    exists ls, ps. repeat split; auto.
    rewrite (congruent_pose_length _ _ _ Hcg). exact Hlen. }
  destruct (err_loop_defined self labels predictions B _
              (frame_new (label_names self)) Hb) as (df & Hloop & Hrows);
    [left; reflexivity|].
  specialize (Hrows Hne).
  assert (∀ t, t ∈ target_label_names self →
               f_cols df !! t = Some (replicate B (Some 0))) as Hcols.
  { intros t Ht. destruct (Hc t Ht) as (ls & ps & Hl & Hp & Hlen & Hcg).
    rewrite (err_loop_sets self labels predictions B _ (frame_new (label_names self)) df
               t (replicate (length ls) 0) Hb Ht);
      [rewrite fmap_replicate, Hlen; reflexivity|left; reflexivity|exact Hloop|].
    apply (abs_err_of_congruent self labels predictions t ls ps Hl Hp Hcg). }
  assert (frame_wf df) as Hwf by (eapply err_loop_wf; [exact Hloop|apply frame_new_wf]).
  destruct (acc_metric_cols self df Hwf) as (acc & Hacc & _ & ov & Hov & Hlen & Hrow).
  { intros [n tol] Hin. cbn [fst]. rewrite Hcols; [eauto|]. eapply elem_of_zip_l, Hin. }
  exists df, acc. unfold calc_batch_metrics, err_metric. rewrite Hloop. cbn [bind].
  rewrite Hacc. cbn [bind].
  split; [reflexivity|]. split; [exact Hrows|]. split; [exact Hcols|].
  rewrite Hov. f_equal.
  assert (ov = replicate B true) as ->.
  { apply list_eq. intros j. destruct (decide (j < B)%nat) as [Hj|Hj].
    - rewrite Hrow by lia. rewrite lookup_replicate_2 by exact Hj. f_equal.
      apply forallb_forall. intros [n tol] Hin. apply list_elem_of_In in Hin.
      unfold row_ok. cbn [fst snd]. rewrite Hcols by (eapply elem_of_zip_l, Hin).
      rewrite lookup_replicate_2 by exact Hj. cbn [cell_lt s_ltb R_scalar].
      apply Rltb_spec. apply (Htol n tol Hin).
    - rewrite lookup_ge_None_2 by lia. symmetry. apply lookup_ge_None_2.
      rewrite length_replicate. lia. }
  rewrite fmap_replicate. reflexivity.
Qed.

Lemma calc_batch_metrics_congruent_witness :
  ∃ err_df acc_df,
    calc_batch_metrics enc_edge labels_edge predictions_edge = Ok (err_df, acc_df) ∧
    f_rows err_df = 1%nat ∧
    (∀ t, t ∈ target_label_names enc_edge → f_cols err_df !! t = Some [Some 0]) ∧
    f_cols acc_df !! "overall_acc" = Some [Some 1].
Proof.
  apply (calc_batch_metrics_congruent enc_edge labels_edge predictions_edge 1).
  - discriminate.
  - intros t Ht. cbn in Ht. apply elem_of_cons in Ht as [->|Ht].
    + exists [2.5], [2.5]. repeat split; reflexivity.
    + apply list_elem_of_singleton in Ht as ->. exists [30], [390].
      split; [reflexivity|]. split; [reflexivity|]. split; [reflexivity|].
      change (mem "yaw" (periodic_label_names enc_edge)) with true.
      cbn [congruent_pose]. constructor; [|constructor]. exists 1%Z. lra.
  - intros t tol Hin. cbn in Hin.
    apply elem_of_cons in Hin as [Heq|Hin].
    + injection Heq as -> ->. simpl. lra.
    + apply list_elem_of_singleton in Hin. injection Hin as -> ->. simpl. lra.
Defined.

(** ** Building the encoder *)

(** X12: an encoder is built only from a document that holds the keys
    [label_names], [target_label_names], [llims] and [ulims], which it takes
    over; without the key [periodic_label_names] no label is periodic and
    [out_dim] is the number of targets; without the key [target_weights] the
    weights are [np.ones(num_targets)]. *)
Theorem LabelEncoder_init_keys {T : Type} `{Scalar T}
    (task_params : gmap string (jval T)) (self : LabelEncoder T) :
  LabelEncoder_init task_params = Ok self →
  task_params !! "label_names" = Some (JStrs (label_names self)) ∧
  task_params !! "target_label_names" = Some (JStrs (target_label_names self)) ∧
  (∃ lo, task_params !! "llims" = Some (JNums lo) ∧ llims self = num_val <$> lo) ∧
  (∃ hi, task_params !! "ulims" = Some (JNums hi) ∧ ulims self = num_val <$> hi) ∧
  (task_params !! "periodic_label_names" = None →
     periodic_label_names self = [] ∧
     out_dim self = length (target_label_names self)) ∧
  (task_params !! "target_weights" = None →
     target_weights self = np_ones (length (target_label_names self))).
Proof.
  intros Hinit. unfold LabelEncoder_init, dict_get, dict_get_default in Hinit.
  destruct (task_params !! "label_names") as [[names|?]|] eqn:Hn;
    cbn [bind as_strs] in Hinit; try discriminate.
  destruct (task_params !! "target_label_names") as [[targets|?]|] eqn:Ht;
    cbn [bind as_strs] in Hinit; try discriminate.
  destruct (task_params !! "periodic_label_names") as [[per|?]|] eqn:Hp;
    cbn [bind as_strs default] in Hinit; try discriminate;
    (destruct (task_params !! "target_weights") as [[?|ws]|] eqn:Hw;
       cbn [bind as_nums default] in Hinit; try discriminate);
    (destruct (task_params !! "tolerences") as [[?|ts]|] eqn:Hts;
       cbn [bind as_nums default] in Hinit; try discriminate);
    (destruct (task_params !! "llims") as [[?|lo]|] eqn:Hlo;
       cbn [bind as_nums] in Hinit; try discriminate);
    (destruct (task_params !! "ulims") as [[?|hi]|] eqn:Hhi;
       cbn [bind as_nums] in Hinit; try discriminate);
    injection Hinit as <-;
    cbn [label_names target_label_names periodic_label_names target_weights llims ulims];
    (split; [reflexivity|]); (split; [reflexivity|]);
    (split; [exists lo; split; reflexivity|]);
    (split; [exists hi; split; reflexivity|]);
    split; try (intros; discriminate); intros _; try reflexivity;
    (split; [reflexivity|]); unfold out_dim; simpl; lia.
Qed.

Lemma LabelEncoder_init_keys_witness :
  ∃ self, LabelEncoder_init task_doc = Ok self ∧
          periodic_label_names self = [] ∧ out_dim self = 2%nat ∧
          target_weights self = np_ones 2.
Proof.
  eexists. split; [reflexivity|].
  destruct (LabelEncoder_init_keys task_doc _ eq_refl) as (_ & _ & _ & _ & Hper & Hw).
  destruct (Hper eq_refl) as [Hp Ho].
  split; [exact Hp|]. split; [exact Ho|]. exact (Hw eq_refl).
Defined.

(** ** Bounds of out_dim *)

(** X13: when no periodic name is listed twice, [out_dim] is at least the
    number of targets and at most twice that number; it is the number of
    targets plus the number of targets that are periodic. *)
Theorem out_dim_bounds {T : Type} (self : LabelEncoder T) :
  NoDup (periodic_label_names self) →
  (length (target_label_names self) <= out_dim self <=
     2 * length (target_label_names self))%nat ∧
  out_dim self =
    (length (target_label_names self) +
     length (filter (λ t, t ∈ periodic_label_names self) (target_label_names self)))%nat.
Proof.
  intros Hnd. unfold out_dim. rewrite (sum_counts _ _ Hnd).
  generalize (target_label_names self) as targets.
  intros targets.
  assert (sum_list ((λ t, if mem t (periodic_label_names self) then 1 else 0)%nat <$> targets)
          = length (filter (λ t, t ∈ periodic_label_names self) targets)) as ->.
  { induction targets as [|t ts IH]; [reflexivity|].
    change (sum_list (?f <$> t :: ts)) with (f t + sum_list (f <$> ts))%nat.
    rewrite IH, filter_cons. unfold mem.
    destruct (decide (t ∈ periodic_label_names self)) as [Hin|Hin].
    - rewrite bool_decide_true by exact Hin. reflexivity.
    - rewrite bool_decide_false by exact Hin. reflexivity. }
  split; [|reflexivity].
  pose proof (length_filter (λ t, t ∈ periodic_label_names self) targets). lia.
Qed.

Lemma out_dim_bounds_witness :
  (2 <= out_dim enc_edge <= 4)%nat ∧ out_dim enc_edge = 3%nat.
Proof.
  apply (out_dim_bounds enc_edge). apply NoDup_singleton.
Defined.

(** ** predict *)

Section Predict.
Context {T : Type} `{Scalar T, Trig T}.

Lemma array_set_item_Ok (arr arr' : list T) (i : nat) (v : list T) :
  array_set_item arr i v = Ok arr' →
  ∃ c, v = [c] ∧ (i < length arr)%nat ∧ arr' = <[i := c]> arr.
Proof.
  unfold array_set_item. destruct v as [|c [|c' v]]; try discriminate.
  destruct (arr !! i) eqn:Hi; [|discriminate].
  intros [= <-]. exists c. repeat split. eapply lookup_lt_Some, Hi.
Qed.

(** Every position of the packed array holds the cell decoded for the target
    whose label has that position, or what it held before the loop. *)
Lemma pack_loop_spec (names : list string) (d : gmap string (list T))
    (targets : list string) (arr0 arr : list T) :
  pack_loop names d targets arr0 = Ok arr →
  length arr = length arr0 ∧
  (∀ t, t ∈ targets →
     ∃ i c, index names t = Ok i ∧ d !! t = Some [c] ∧ (i < length arr0)%nat) ∧
  ∀ i, (∃ t c, t ∈ targets ∧ index names t = Ok i ∧ d !! t = Some [c] ∧
               arr !! i = Some c) ∨
       ((∀ t, t ∈ targets → index names t ≠ Ok i) ∧ arr !! i = arr0 !! i).
Proof.
  revert arr0. induction targets as [|t0 rest IH]; intros arr0 Hloop.
  { injection Hloop as <-. split; [reflexivity|]. split.
    - intros t Ht. inversion Ht.
    - intros i. right. split; [|reflexivity]. intros t Ht. inversion Ht. }
  cbn [pack_loop] in Hloop. unfold dict_get in Hloop.
  destruct (d !! t0) as [v|] eqn:Hv; [|discriminate]. cbn [bind] in Hloop.
  destruct (index names t0) as [i0|] eqn:Hi0; [|discriminate]. cbn [bind] in Hloop.
  destruct (array_set_item arr0 i0 v) as [arr1|] eqn:Hset; [|discriminate].
  cbn [bind] in Hloop.
  apply array_set_item_Ok in Hset as (c0 & -> & Hlt & ->).
  destruct (IH _ Hloop) as (Hlen & Hall & Hpos).
  rewrite length_insert in Hlen. split; [exact Hlen|]. split.
  - intros t Ht. apply elem_of_cons in Ht as [->|Ht].
    + exists i0, c0. done.
    + destruct (Hall t Ht) as (i & c & Hi & Hc & Hl).
      rewrite length_insert in Hl. exists i, c. done.
  - intros i. destruct (Hpos i) as [(t & c & Ht & Hi & Hc & Ha)|[Hno Ha]].
    + left. exists t, c. split; [right; exact Ht|done].
    + destruct (decide (i = i0)) as [->|Hne].
      * left. exists t0, c0. split; [left|]. split; [exact Hi0|]. split; [exact Hv|].
        rewrite Ha. apply list_lookup_insert_eq. exact Hlt.
      * right. split.
        -- intros t Ht. apply elem_of_cons in Ht as [->|Ht]; [congruence|apply Hno, Ht].
        -- rewrite Ha. apply list_lookup_insert_ne. congruence.
Qed.

End Predict.

(** X14: an array that [predict] returns has one entry per label name; the
    tensor decoded for a target has a single cell, which is the entry at the
    position of the target among the label names; the entry of a label name
    that is not a target is 0. *)
Theorem predict_packs {T : Type} `{Scalar T, Trig T} {Image : Type}
    (self : LabelledModel Image) (tactile_image : Image) (arr : list T) :
  predict self tactile_image = Ok arr →
  ∃ d,
    decode_label (label_encoder self) (model self tactile_image) = Ok d ∧
    length arr = length (label_names (label_encoder self)) ∧
    (∀ t, t ∈ target_label_names (label_encoder self) →
       ∃ i c, index (label_names (label_encoder self)) t = Ok i ∧
              d !! t = Some [c] ∧ arr !! i = Some c) ∧
    (∀ i name,
       label_names (label_encoder self) !! i = Some name →
       name ∉ target_label_names (label_encoder self) →
       arr !! i = Some (s_of_Z 0)).
Proof.
  unfold predict, predict_outputs. intros Hp.
  destruct (decode_label _ _) as [d|] eqn:Hd; [|discriminate]. cbn [bind] in Hp.
  exists d. split; [reflexivity|].
  destruct (pack_loop_spec _ _ _ _ _ Hp) as (Hlen & Hall & Hpos).
  rewrite length_replicate in Hlen. split; [exact Hlen|]. split.
  - intros t Ht. destruct (Hall t Ht) as (i & c & Hi & Hc & _).
    exists i, c. split; [exact Hi|]. split; [exact Hc|].
    destruct (Hpos i) as [(t' & c' & _ & Hi' & Hc' & Ha)|[Hno _]].
    + apply index_Ok_lookup in Hi, Hi'. assert (t' = t) as -> by congruence.
      rewrite Ha. congruence.
    + destruct (Hno t Ht Hi).
  - intros i name Hi Hn.
    destruct (Hpos i) as [(t' & c' & Ht' & Hi' & _)|[_ Ha]].
    + apply index_Ok_lookup in Hi'. assert (t' = name) as -> by congruence. done.
    + rewrite Ha. apply lookup_replicate_2. eapply lookup_lt_Some, Hi.
Qed.

Lemma predict_packs_witness :
  ∃ arr, predict model_edge () = Ok arr ∧ length arr = 6%nat ∧ arr !! 1%nat = Some 0.
Proof.
  destruct (predict model_edge ()) as [arr|] eqn:Hp; [|discriminate Hp].
  exists arr. split; [reflexivity|].
  destruct (predict_packs model_edge () arr Hp) as (d & _ & Hlen & _ & Hz).
  split; [exact Hlen|]. apply (Hz 1%nat "y"); [reflexivity|].
  intros Hin. apply elem_of_cons in Hin as [Hin|Hin]; [discriminate|].
  apply list_elem_of_singleton in Hin. discriminate.
Defined.

(** ** Control parameters: the other tasks, the gains *)

(** X15: a task other than the four that have a branch leaves
    [control_params] unbound: [setup_control_params] raises
    [UnboundLocalError]. *)
Theorem setup_control_params_unknown_task (task : string) :
  task ∉ ["surface_3d"; "edge_2d"; "edge_3d"; "edge_5d"] →
  setup_control_params task = Raise UnboundLocalError.
Proof.
  intros Hn. unfold setup_control_params.
  repeat (destruct (decide _) as [->|_];
          [exfalso; apply Hn; rewrite !elem_of_cons; tauto|]).
  reflexivity.
Qed.

Lemma setup_control_params_unknown_task_witness :
  setup_control_params "surface_2d" = Raise UnboundLocalError.
Proof.
  apply (setup_control_params_unknown_task "surface_2d").
  rewrite !elem_of_cons, elem_of_nil.
  intros [Heq|[Heq|[Heq|[Heq|[]]]]]; discriminate Heq.
Defined.

(** X16: in the parameters of every accepted task no gain is negative, the
    clip bounds of the integral error enclose 0 on every axis, the reference
    pose has six entries and the error is the SE(3) error. *)
Theorem setup_control_params_gains (task : string) (cp : control_params) :
  setup_control_params task = Ok cp →
  Forall (Rle 0) (kp (pid_params cp)) ∧ Forall (Rle 0) (ki (pid_params cp)) ∧
  Forall2 (λ lo hi, lo <= 0 <= hi) (ei_clip (pid_params cp)).1 (ei_clip (pid_params cp)).2 ∧
  length (ref_pose cp) = 6%nat ∧ error (pid_params cp) = se3_error.
Proof.
  unfold setup_control_params.
  repeat (destruct (decide _) as [_|_]); try discriminate;
    intros [= <-]; cbn [kp ki ei_clip ref_pose error pid_params fst snd];
    (split; [repeat (apply List.Forall_cons; [lra|]); apply List.Forall_nil|]);
    (split; [repeat (apply List.Forall_cons; [lra|]); apply List.Forall_nil|]);
    (split; [repeat (apply List.Forall2_cons; [split; lra|]); apply List.Forall2_nil|]);
    split; reflexivity.
Qed.

Lemma setup_control_params_gains_witness :
  ∃ cp, setup_control_params "edge_3d" = Ok cp ∧
        Forall (Rle 0) (ki (pid_params cp)) ∧ length (ref_pose cp) = 6%nat.
Proof.
  eexists. split; [reflexivity|].
  destruct (setup_control_params_gains "edge_3d" _ eq_refl) as (_ & Hki & _ & Hlen & _).
  split; [exact Hki|exact Hlen].
Defined.

(** ** Environment parameters *)

(** X17: whatever it returns, [setup_env_params] keeps the stimulus, gives a
    tool pose and a work frame of six entries, the work frame with the
    orientation (-180, 0, 0); the robot is the simulated one exactly when the
    argument is 'Sim', and any other argument gives the parameters of the
    real robot 'CR', with a speed and without the keys of the simulation. *)
Theorem setup_env_params_invariant (robot_arg task stimulus : string) (e : env_params) :
  setup_env_params robot_arg task stimulus = Ok e →
  stim_name e = stimulus ∧
  length (tcp_pose e) = 6%nat ∧ length (work_frame e) = 6%nat ∧
  drop 3 (work_frame e) = [-180; 0; 0]%Z ∧
  (robot_arg = "Sim" ∧ robot e = "Sim" ∧ model_type e = "simple_cnn" ∧
     speed e = None ∧ show_gui e = Some true
   ∨ robot_arg ≠ "Sim" ∧ robot e = "CR" ∧ model_type e = "posenet_cnn" ∧
     speed e = Some 20%Z ∧ show_gui e = None ∧ stim_pose e = None).
Proof.
  unfold setup_env_params.
  destruct (decide (robot_arg = "Sim")) as [->|Hr];
    cbn [robot tcp_pose stim_name stim_pose show_gui show_tactile quick_mode speed
         model_type];
    unfold query_work_frame, work_frame_df; cbn [omap list_omap];
    repeat case_decide; try discriminate;
    intros [= <-];
    cbn [robot tcp_pose stim_name stim_pose show_gui show_tactile quick_mode speed
         model_type work_frame];
    (split; [reflexivity|]); (split; [reflexivity|]); (split; [reflexivity|]);
    (split; [reflexivity|]);
    first [ left; repeat split; reflexivity
          | right; split; [exact Hr|]; repeat split; reflexivity ].
Qed.

Lemma setup_env_params_invariant_witness :
  ∃ e, setup_env_params "Sim" "edge_2d" "bowl" = Ok e ∧
       stim_name e = "bowl" ∧ work_frame e = [600; 0; 25; -180; 0; 0]%Z ∧
       length (tcp_pose e) = 6%nat.
Proof.
  eexists. split; [reflexivity|].
  destruct (setup_env_params_invariant "Sim" "edge_2d" "bowl" _ eq_refl)
    as (Hs & Ht & _).
  split; [exact Hs|]. split; [reflexivity|exact Ht].
Defined.

(** X18: for a robot other than 'Sim' and plain names, the table of work
    frames has one row only: an edge task on the circle gets the work frame
    (0, -470, 65, -180, 0, 0); any other task or stimulus raises
    [IndexError]. *)
Theorem setup_env_params_real_robot (robot_arg task stimulus : string) :
  robot_arg ≠ "Sim" →
  plain_name (drop_last3 task) = true → plain_name stimulus = true →
  (drop_last3 task = "edge" → stimulus = "circle" →
     ∃ e, setup_env_params robot_arg task stimulus = Ok e ∧
          work_frame e = [0; -470; 65; -180; 0; 0]%Z) ∧
  (drop_last3 task ≠ "edge" ∨ stimulus ≠ "circle" →
     setup_env_params robot_arg task stimulus = Raise IndexError).
Proof.
  intros Hr _ _. unfold setup_env_params.
  rewrite decide_False by exact Hr. cbn [robot].
  unfold query_work_frame, work_frame_df. cbn [omap list_omap]. split.
  - intros -> ->. rewrite decide_True by done. eexists. split; reflexivity.
  - intros Hne. repeat case_decide; try reflexivity;
      repeat match goal with Hc : _ ∧ _ |- _ => destruct Hc end;
      try discriminate.
    destruct Hne as [Hne|Hne]; congruence.
Qed.

Lemma setup_env_params_real_robot_witness :
  (∃ e, setup_env_params "CR" "edge_5d" "circle" = Ok e ∧
        work_frame e = [0; -470; 65; -180; 0; 0]%Z) ∧
  setup_env_params "CR" "surface_3d" "saddle" = Raise IndexError.
Proof.
  split.
  - apply (setup_env_params_real_robot "CR" "edge_5d" "circle");
      [discriminate|reflexivity..].
  - apply (setup_env_params_real_robot "CR" "surface_3d" "saddle");
      [discriminate|reflexivity|reflexivity|left; discriminate].
Defined.

(** X19: every task that [setup_control_params] accepts has environment
    parameters on the simulated robot with the saddle, and all of them have
    the work frame (600, -65, 52, -180, 0, 0). *)
Theorem servo_tasks_share_sim_frame (task : string) (cp : control_params) :
  setup_control_params task = Ok cp →
  ∃ e, setup_env_params "Sim" task "saddle" = Ok e ∧
       robot e = "Sim" ∧ work_frame e = [600; -65; 52; -180; 0; 0]%Z.
Proof.
  unfold setup_control_params.
  repeat (destruct (decide _) as [->|_]); try discriminate; intros _;
    (eexists; split; [reflexivity|split; reflexivity]).
Qed.

Lemma servo_tasks_share_sim_frame_witness :
  ∃ e, setup_env_params "Sim" "surface_3d" "saddle" = Ok e ∧
       robot e = "Sim" ∧ work_frame e = [600; -65; 52; -180; 0; 0]%Z.
Proof.
  destruct (setup_control_params "surface_3d") as [cp|] eqn:Hcp; [|discriminate Hcp].
  apply (servo_tasks_share_sim_frame "surface_3d" cp Hcp).
Defined.

(** ** Normalised decoding: the range *)

Lemma decode_norm_cell_range (llim ulim p : R) :
  llim < ulim →
  let d := (p + 1) / 2 * (ulim - llim) + llim in
  (-1 <= p <= 1 ↔ llim <= d <= ulim) ∧ (p < -1 ↔ d < llim) ∧ (1 < p ↔ ulim < d).
Proof.
  intros Hlt. cbv zeta.
  set (h := (ulim - llim) / 2).
  assert (0 < h) as Hh by (unfold h; lra).
  assert ((p + 1) / 2 * (ulim - llim) + llim = llim + (p + 1) * h) as ->
    by (unfold h; field).
  assert (ulim = llim + 2 * h) as Hu by (unfold h; field).
  clearbody h.
  assert (0 <= p + 1 ↔ 0 <= (p + 1) * h) as Hge by (split; intros; nra).
  assert (p + 1 <= 2 ↔ (p + 1) * h <= 2 * h) as Hle by (split; intros; nra).
  repeat split; intros; try lra;
    try (apply Rnot_le_lt; intros Hc; lra).
Qed.

(** X20: over exact arithmetic, for a label with [llim < ulim], [decode_norm]
    does not clip: it takes the predictions of [-1, 1], and only them, into
    [llim, ulim]; a prediction below -1 is decoded below [llim], one above 1
    above [ulim]. *)
Theorem decode_norm_range
    (self : LabelEncoder R) (label_name : string) (prediction : list R)
    (i : nat) (llim ulim : R) :
  index (label_names self) label_name = Ok i →
  llims self !! i = Some llim →
  ulims self !! i = Some ulim →
  llim < ulim →
  ∃ v, decode_norm self prediction label_name = Ok v ∧
       Forall2 (λ p d, (-1 <= p <= 1 ↔ llim <= d <= ulim) ∧
                       (p < -1 ↔ d < llim) ∧ (1 < p ↔ ulim < d))
               prediction v.
Proof.
  intros Hi Hl Hu Hlt. unfold decode_norm, getitem.
  rewrite Hi; simpl. rewrite Hl, Hu; simpl.
  eexists; split; [reflexivity|].
  induction prediction as [|p prediction IH]; simpl; constructor; [|exact IH].
  apply decode_norm_cell_range, Hlt.
Qed.

Lemma decode_norm_range_witness :
  ∃ v, decode_norm enc_edge [1; 1.5] "x" = Ok v ∧
       Forall2 (λ p d, (-1 <= p <= 1 ↔ -5 <= d <= 5) ∧
                       (p < -1 ↔ d < -5) ∧ (1 < p ↔ 5 < d))
               [1; 1.5] v.
Proof.
  apply (decode_norm_range enc_edge "x" [1; 1.5] 0 (-5) 5);
    [reflexivity | reflexivity | reflexivity | lra].
Defined.

(** ** A name that is not a label name *)

Lemma index_unknown (l : list string) (x : string) :
  x ∉ l → index l x = Raise ValueError.
Proof.
  induction l as [|y l IH]; intros Hn; simpl; [reflexivity|].
  apply not_elem_of_cons in Hn as [Hne Hn].
  rewrite decide_False by congruence. rewrite (IH Hn). reflexivity.
Qed.

(** X21: for a name that is not among [label_names], [encode_norm] and
    [decode_norm] raise [ValueError], whatever the tensor. *)
Theorem norm_unknown_label {T : Type} `{Scalar T}
    (self : LabelEncoder T) (x : list T) (label_name : string) :
  label_name ∉ label_names self →
  encode_norm self x label_name = Raise ValueError ∧
  decode_norm self x label_name = Raise ValueError.
Proof.
  intros Hn. unfold encode_norm, decode_norm.
  rewrite (index_unknown _ _ Hn). split; reflexivity.
Qed.

Lemma norm_unknown_label_witness :
  encode_norm enc_edge [1] "speed" = Raise ValueError ∧
  decode_norm enc_edge [1] "speed" = Raise ValueError.
Proof.
  apply (norm_unknown_label enc_edge [1] "speed").
  unfold enc_edge, pose_names. cbn [label_names].
  rewrite !elem_of_cons, elem_of_nil.
  intros [Heq|[Heq|[Heq|[Heq|[Heq|[Heq|[]]]]]]]; discriminate Heq.
Defined.

(** ** Columns of the metric frames *)

(** X22: [acc_metric] returns a frame only for an error frame with a column
    for every target that has a tolerance, and the frame it returns has the
    column [overall_acc]. *)
Theorem acc_metric_requires_columns {T : Type} `{Scalar T}
    (self : LabelEncoder T) (err_df acc_df : frame T) :
  acc_metric self err_df = Ok acc_df →
  (∀ n tol, (n, tol) ∈ zip (target_label_names self) (tolerences self) →
            is_Some (f_cols err_df !! n)) ∧
  is_Some (f_cols acc_df !! "overall_acc").
Proof.
  unfold acc_metric. intros Hacc. inv_bind. split.
  - intros n tol Hin. apply (acc_loop_Ok_cols _ _ _ _ _ Ha (n, tol) Hin).
  - unfold frame_set in Hacc.
    destruct (decide (f_rows a.2 = 0%nat)) as [Hz|Hz].
    + injection Hacc as <-. cbn [f_cols]. rewrite lookup_insert_eq. eauto.
    + destruct (decide _) as [Hl|Hl]; [|discriminate].
      injection Hacc as <-. cbn [f_cols]. rewrite lookup_insert_eq. eauto.
Qed.

Lemma acc_metric_requires_columns_witness :
  ∃ acc_df, acc_metric enc_edge err_sample = Ok acc_df ∧
            is_Some (f_cols err_sample !! "yaw") ∧
            is_Some (f_cols acc_df !! "overall_acc").
Proof.
  destruct (acc_metric enc_edge err_sample) as [acc_df|] eqn:Hacc; [|discriminate Hacc].
  exists acc_df. split; [reflexivity|].
  destruct (acc_metric_requires_columns enc_edge err_sample acc_df Hacc) as [Hcols Hov].
  split; [|exact Hov]. apply (Hcols "yaw" (PyFloat 1)). right. left.
Defined.

Section ErrUntargeted.
Context {T : Type} `{Scalar T, Trig T}.

Lemma frame_new_lookup (names : list string) (name : string) :
  name ∈ names → f_cols (frame_new (T:=T) names) !! name = Some [].
Proof.
  unfold frame_new. cbn [f_cols]. generalize (∅ : gmap string (list (option T))).
  induction names as [|x names IH]; intros m Hin; [inversion Hin|].
  cbn [foldl]. destruct (decide (name ∈ names)) as [Hin'|Hnin]; [apply IH, Hin'|].
  apply elem_of_cons in Hin as [->|?]; [|done].
  clear IH. revert m. induction names as [|y names IH]; intros m; cbn [foldl].
  - apply lookup_insert_eq.
  - apply not_elem_of_cons in Hnin as [Hne Hnin].
    rewrite insert_insert_ne by congruence. apply IH, Hnin.
Qed.

(** A column of missing values that the loop of [err_metric] does not assign
    is still one after the loop, as long as the frame. *)
Lemma err_loop_untouched (self : LabelEncoder T) (labels predictions : gmap string (list T))
    (B : nat) (targets : list string) (df df' : frame T) (name : string) :
  batch_of labels predictions B targets → name ∉ targets →
  err_loop self labels predictions targets df = Ok df' →
  f_rows df = 0%nat ∨ f_rows df = B →
  f_cols df !! name = Some (replicate (f_rows df) None) →
  f_cols df' !! name = Some (replicate (f_rows df') None).
Proof.
  revert df. induction targets as [|t rest IH]; intros df Hb Hn Hloop Hrows Hcol;
    simpl in Hloop.
  { injection Hloop as <-. exact Hcol. }
  apply not_elem_of_cons in Hn as [Hne Hn]. inv_bind.
  destruct (abs_err_of_batch self labels predictions B (t :: rest) t Hb) as (e & He & Hlen);
    [left|].
  assert (a = e) as -> by congruence.
  assert (length (Some <$> e) = B) as Hlen' by (rewrite length_fmap; exact Hlen).
  apply (IH a0); auto.
  - intros t' Ht'. apply Hb. right. exact Ht'.
  - right. destruct (frame_set_fresh _ _ _ _ Ha0) as [Hr _]; [rewrite Hlen'; exact Hrows|].
    congruence.
  - unfold frame_set in Ha0. destruct (decide (f_rows df = 0%nat)) as [Hz|Hz].
    + injection Ha0 as <-. cbn [f_cols f_rows].
      rewrite lookup_insert_ne by congruence. rewrite lookup_fmap, Hcol. reflexivity.
    + destruct (decide _) as [Hl|Hl]; [|discriminate].
      injection Ha0 as <-. cbn [f_cols f_rows].
      rewrite lookup_insert_ne by congruence. exact Hcol.
Qed.

End ErrUntargeted.

(** X23: when every target has a label and a prediction tensor of [B] cells
    and there is at least one target, the frame of [err_metric] has [B] rows
    and, for a label name that is not a target, a column of [B] missing
    values. *)
Theorem err_metric_untargeted {T : Type} `{Scalar T, Trig T}
    (self : LabelEncoder T) (labels predictions : gmap string (list T)) (B : nat) :
  batch_of labels predictions B (target_label_names self) →
  target_label_names self ≠ [] →
  ∃ err_df,
    err_metric self labels predictions = Ok err_df ∧ f_rows err_df = B ∧
    ∀ name, name ∈ label_names self → name ∉ target_label_names self →
            f_cols err_df !! name = Some (replicate B None).
Proof.
  intros Hb Hne. unfold err_metric.
  destruct (err_loop_defined self labels predictions B _ (frame_new (label_names self)) Hb)
    as (df & Hloop & Hrows); [left; reflexivity|].
  specialize (Hrows Hne). exists df. split; [exact Hloop|]. split; [exact Hrows|].
  intros name Hin Hnt. rewrite <- Hrows.
  apply (err_loop_untouched self labels predictions B _ _ _ name Hb Hnt Hloop);
    [left; reflexivity|].
  apply frame_new_lookup, Hin.
Qed.

Lemma err_metric_untargeted_witness :
  ∃ err_df,
    err_metric enc_edge labels_edge predictions_edge = Ok err_df ∧
    f_rows err_df = 1%nat ∧ f_cols err_df !! "pitch" = Some [None].
Proof.
  destruct (err_metric_untargeted enc_edge labels_edge predictions_edge 1)
    as (df & Hdf & Hrows & Hcols).
  - intros t Ht. cbn in Ht. apply elem_of_cons in Ht as [->|Ht].
    + exists [2.5], [2.5]. repeat split; reflexivity.
    + apply list_elem_of_singleton in Ht as ->. exists [30], [390].
      repeat split; reflexivity.
  - discriminate.
  - exists df. split; [exact Hdf|]. split; [exact Hrows|].
    apply (Hcols "pitch").
    + unfold enc_edge, pose_names. cbn [label_names]. rewrite !elem_of_cons. tauto.
    + intros Hin. apply elem_of_cons in Hin as [Hin|Hin]; [discriminate|].
      apply list_elem_of_singleton in Hin. discriminate.
Defined.
